(** * transmissionrpc: the torrent-set mutator (torrent_mutators.go)

    A shallow embedding of [compact], [TorrentSet] and
    [TorrentSetPayload.MarshalJSON], with the properties the natural-language
    specification states about them. *)

From Stdlib Require Import ZArith Ascii String Floats.SpecFloat.
From Stdlib Require OrdersEx.
From stdpp Require Import gmap strings list sorting.

(** ** [compact]: consecutive runs of equal elements collapse to one copy *)

Section compact.
Context {E : Type} `{EqDecision E}.

(** A Go slice [s] is a window on a backing array.  Here the window is the
    list of its [len(s)] elements; an index expression outside the window
    panics, which is [None].  The functions return the contents of the
    window after the writes, and the length [k] of the slice [s[:k]] that
    the Go code returns. *)

(** The inner loop [for k2 := 1; k2 < len(s2); k2++], where [s2 := s[k0:]]
    shares its elements with [s]: [s2[i]] is [s[k0+i]].  [len(s2)] is fixed
    and [k2] only changes by [k2++], so [n] counts the iterations that remain
    ([n = len(s2) - k2]). *)
Fixpoint compact_inner (n k0 : nat) (s : list E) (k k2 : nat)
  : option (list E * nat) :=
  match n with
  | 0 => Some (s, k)                                   (* return s[:k] *)
  | S n' =>
      a ← s !! (k0 + k2);                               (* s2[k2]   *)
      b ← s !! (k0 + (k2 - 1));                         (* s2[k2-1] *)
      if decide (a ≠ b) then
        if decide (k < length s)
        then compact_inner n' k0 (<[k := a]> s) (S k) (S k2)   (* s[k] = s2[k2]; k++ *)
        else None
      else compact_inner n' k0 s k (S k2)
  end.

(** The outer loop [for k := 1; k < len(s); k++]: it leaves through the
    inner loop at the first [k] with [s[k] == s[k-1]]; [n] counts the
    iterations that remain ([n = len(s) - k]). *)
Fixpoint compact_scan (n : nat) (s : list E) (k : nat)
  : option (list E * nat) :=
  match n with
  | 0 => Some (s, length s)                            (* return s *)
  | S n' =>
      a ← s !! k;
      b ← s !! (k - 1);
      if decide (a = b)
      then compact_inner (length s - k - 1) k s k 1
      else compact_scan n' s (S k)
  end.

Definition compact (s : list E) : option (list E * nat) :=
  if decide (length s < 2) then Some (s, length s)
  else compact_scan (length s - 1) s 1.

(** The slice value [compact] returns, read through the array it left. *)
Definition compacted (s : list E) : option (list E) :=
  r ← compact s; Some (take r.2 r.1).

(** The specification's wording, as a function: scan left to right and
    drop every element equal to its immediate predecessor. *)
Fixpoint uniq_from (prev : E) (l : list E) : list E :=
  match l with
  | [] => []
  | x :: l' => if decide (x = prev) then uniq_from x l' else x :: uniq_from x l'
  end.

Definition uniq (l : list E) : list E :=
  match l with
  | [] => []
  | x :: l' => x :: uniq_from x l'
  end.

(** No element equals the one right before it. *)
Inductive no_adjacent_eq : list E → Prop :=
| nae_nil : no_adjacent_eq []
| nae_one x : no_adjacent_eq [x]
| nae_cons x y l : x ≠ y → no_adjacent_eq (y :: l) → no_adjacent_eq (x :: y :: l).

End compact.

(** ** Library functions the file calls *)

(** Go strings are byte sequences; [string] is a list of 8-bit characters. *)
Definition newline : string := String (ascii_of_nat 10) EmptyString.

(** [strings.Join(elems, sep)]. *)
Fixpoint strings_Join (elems : list string) (sep : string) : string :=
  match elems with
  | [] => EmptyString
  | [x] => x
  | x :: rest => (x ++ sep ++ strings_Join rest sep)%string
  end.

(** Go compares strings byte by byte, a proper prefix first: the order of
    [String.compare]. *)
Definition string_le (a b : string) : Prop := String.leb a b = true.

#[global] Instance string_le_dec a b : Decision (string_le a b).
Proof. unfold string_le. apply _. Defined.

(** [sort.Strings] leaves its argument in increasing order.  The algorithm is
    the library's; only its result matters here, and for a total order on
    values compared by content that result is unique. *)
Definition sort_Strings_list (x : list string) : list string :=
  merge_sort string_le x.

(** [time.Duration] is an [int64] count of nanoseconds. *)
Definition time_Nanosecond : Z := 1.
Definition time_Microsecond : Z := 1000 * time_Nanosecond.
Definition time_Millisecond : Z := 1000 * time_Microsecond.
Definition time_Second : Z := 1000 * time_Millisecond.
Definition time_Minute : Z := 60 * time_Second.

(** Go's [error] values, as far as this file builds and inspects them:
    [errors.New] makes a leaf that is only its message, [fmt.Errorf] with one
    [%w] verb makes a wrapper that keeps the wrapped error.  An error of any
    other dynamic type is seen through the same two methods. *)
Inductive error : Type :=
| errorString (s : string)
| wrapError (msg : string) (err : error).

Definition errors_New (text : string) : error := errorString text.

Definition Error (e : error) : string :=
  match e with
  | errorString s => s
  | wrapError msg _ => msg
  end.

Definition Unwrap (e : error) : option error :=
  match e with
  | errorString _ => None
  | wrapError _ err => Some err
  end.

(** [fmt.Errorf(prefix + "%w", err)]: the message is the format with [%w]
    replaced by [err.Error()]. *)
Definition fmt_Errorf_w (prefix : string) (err : error) : error :=
  wrapError (prefix ++ Error err) err.

(** ** Memory: the backing arrays of [[]string] slices

    [TorrentSet] writes to memory in one place only, the elements of
    [payload.TrackerList].  The store therefore holds the arrays of strings:
    the two [[]string] fields, [Labels] and [TrackerList], are slices of it,
    and the two [*string] fields, [Group] and [Location], point into it.  No
    pointer or slice of another type can reach a string array, so the targets
    of the other pointers and the [[]int64] arrays, which are never written,
    are carried by their contents. *)

Abbreviation Heap := (gmap nat (list string)).

(** A non-nil slice: its array, the offset of its first element and its
    length.  The capacity is not modelled: nothing appends. *)
Record slice : Type := Slice { arr : nat; off : nat; len : nat }.

Definition slice_wf (h : Heap) (s : slice) : Prop :=
  ∃ a, h !! arr s = Some a ∧ off s + len s ≤ length a.

Definition slice_elems (h : Heap) (s : slice) : list string :=
  take (len s) (drop (off s) (default [] (h !! arr s))).

(** Overwrite the elements of [s] with [w] (as many as [s] has). *)
Definition slice_store (h : Heap) (s : slice) (w : list string) : Heap :=
  match h !! arr s with
  | Some a => <[arr s := take (off s) a ++ w ++ drop (off s + length w) a]> h
  | None => h
  end.

(** A non-nil [*string]: the array and the index of the string it points to.
    A string variable of its own is an array of one element; [&x[i]] points
    into the array of the slice [x]. *)
Record pointer : Type := Pointer { parr : nat; pidx : nat }.

(** The one-element slice on the string a pointer points to. *)
Definition pointee (q : pointer) : slice :=
  {| arr := parr q; off := pidx q; len := 1 |}.

(** The string read through a pointer. *)
Definition deref (h : Heap) (q : pointer) : string :=
  default EmptyString (head (slice_elems h (pointee q))).

(** The two slices share no element. *)
Definition slice_disjoint (s1 s2 : slice) : Prop :=
  arr s1 ≠ arr s2 ∨ off s1 + len s1 ≤ off s2 ∨ off s2 + len s2 ≤ off s1.

(** [sort.Strings(x)], in place; a nil slice has nothing to sort. *)
Definition sort_Strings (h : Heap) (x : option slice) : Heap :=
  match x with
  | None => h
  | Some s => slice_store h s (sort_Strings_list (slice_elems h s))
  end.

(** [compact(x)] on a slice in memory: the writes land in the array of [x],
    the result is [x] itself or [x[:k]].  For nil, [len(s) < 2] returns it. *)
Definition compact_slice (h : Heap) (x : option slice)
  : option (Heap * option slice) :=
  match x with
  | None => Some (h, None)
  | Some s =>
      r ← compact (slice_elems h s);
      Some (slice_store h s r.1, Some {| arr := arr s; off := off s; len := r.2 |})
  end.

(** ** The payload *)

(** Modelled from the spec: the declaration of the type [SeedRatioMode] is
    not in torrent_mutators.go; the specification calls the attribute an
    enumerated mode, carried here by its integer code. *)
Definition SeedRatioModeT : Type := Z.

(** A pointer field is [None] when nil and [Some v] when it points to [v]
    (for a [*string], [Some q] with [q] the place of the string in memory);
    a slice field is [None] when nil, and a non-nil slice may be empty. *)
Record TorrentSetPayload : Type := {
  BandwidthPriority   : option Z;
  DownloadLimit       : option Z;
  DownloadLimited     : option bool;
  FilesWanted         : option (list Z);
  FilesUnwanted       : option (list Z);
  Group               : option pointer;
  HonorsSessionLimits : option bool;
  IDs                 : option (list Z);
  Labels              : option slice;
  Location            : option pointer;
  PeerLimit           : option Z;
  PriorityHigh        : option (list Z);
  PriorityLow         : option (list Z);
  PriorityNormal      : option (list Z);
  QueuePosition       : option Z;
  SeedIdleLimit       : option Z;
  SeedIdleMode        : option Z;
  SeedRatioLimit      : option spec_float;
  SeedRatioMode       : option SeedRatioModeT;
  TrackerList         : option slice;
  UploadLimit         : option Z;
  UploadLimited       : option bool
}.

(** [payload.TrackerList = tl] on the callee's copy of the payload. *)
Definition set_TrackerList (tl : option slice) (p : TorrentSetPayload)
  : TorrentSetPayload :=
  {| BandwidthPriority := BandwidthPriority p;
     DownloadLimit := DownloadLimit p;
     DownloadLimited := DownloadLimited p;
     FilesWanted := FilesWanted p;
     FilesUnwanted := FilesUnwanted p;
     Group := Group p;
     HonorsSessionLimits := HonorsSessionLimits p;
     IDs := IDs p;
     Labels := Labels p;
     Location := Location p;
     PeerLimit := PeerLimit p;
     PriorityHigh := PriorityHigh p;
     PriorityLow := PriorityLow p;
     PriorityNormal := PriorityNormal p;
     QueuePosition := QueuePosition p;
     SeedIdleLimit := SeedIdleLimit p;
     SeedIdleMode := SeedIdleMode p;
     SeedRatioLimit := SeedRatioLimit p;
     SeedRatioMode := SeedRatioMode p;
     TrackerList := tl;
     UploadLimit := UploadLimit p;
     UploadLimited := UploadLimited p |}.

(** [len(x)] of a slice field of integers. *)
Definition len_ints (x : option (list Z)) : nat := length (default [] x).

(** ** [MarshalJSON]: only the non-nil fields reach the wire *)

(** What [reflect] shows of a struct: each field has its Go name, the value
    of its [json] tag and its value.  The value of a pointer or slice field is
    [None] when [IsNil] holds; otherwise it is what [Interface()] hands to the
    JSON encoder, which follows pointers and so sees the contents. *)
Inductive Value : Type :=
| VInt64 (z : Z)
| VBool (b : bool)
| VFloat64 (f : spec_float)
| VString (s : string)
| VSeedRatioMode (m : SeedRatioModeT)
| VDuration (d : Z)
| VInt64s (l : list Z)
| VStrings (l : list string)
| VStruct (fields : list Field)
with Field : Type :=
| mkField (Name : string) (Tag_json : string) (value : option Value).

Definition Name (f : Field) : string := match f with mkField n _ _ => n end.
Definition Tag_json (f : Field) : string := match f with mkField _ t _ => t end.
Definition value (f : Field) : option Value := match f with mkField _ _ v => v end.

(** The fields of [TorrentSetPayload] (and of [baseTorrentSetPayload], which
    has the same underlying type) in declaration order, read in memory [h]. *)
Definition fields_TorrentSetPayload (h : Heap) (tsp : TorrentSetPayload) : list Field :=
  [ mkField "BandwidthPriority"   "bandwidthPriority"   (VInt64 <$> BandwidthPriority tsp);
    mkField "DownloadLimit"       "downloadLimit"       (VInt64 <$> DownloadLimit tsp);
    mkField "DownloadLimited"     "downloadLimited"     (VBool <$> DownloadLimited tsp);
    mkField "FilesWanted"         "files-wanted"        (VInt64s <$> FilesWanted tsp);
    mkField "FilesUnwanted"       "files-unwanted"      (VInt64s <$> FilesUnwanted tsp);
    mkField "Group"               "group"               ((λ q, VString (deref h q)) <$> Group tsp);
    mkField "HonorsSessionLimits" "honorsSessionLimits" (VBool <$> HonorsSessionLimits tsp);
    mkField "IDs"                 "ids"                 (VInt64s <$> IDs tsp);
    mkField "Labels"              "labels"              ((λ s, VStrings (slice_elems h s)) <$> Labels tsp);
    mkField "Location"            "location"            ((λ q, VString (deref h q)) <$> Location tsp);
    mkField "PeerLimit"           "peer-limit"          (VInt64 <$> PeerLimit tsp);
    mkField "PriorityHigh"        "priority-high"       (VInt64s <$> PriorityHigh tsp);
    mkField "PriorityLow"         "priority-low"        (VInt64s <$> PriorityLow tsp);
    mkField "PriorityNormal"      "priority-normal"     (VInt64s <$> PriorityNormal tsp);
    mkField "QueuePosition"       "queuePosition"       (VInt64 <$> QueuePosition tsp);
    mkField "SeedIdleLimit"       "-"                   (VDuration <$> SeedIdleLimit tsp);
    mkField "SeedIdleMode"        "seedIdleMode"        (VInt64 <$> SeedIdleMode tsp);
    mkField "SeedRatioLimit"      "seedRatioLimit"      (VFloat64 <$> SeedRatioLimit tsp);
    mkField "SeedRatioMode"       "seedRatioMode"       (VSeedRatioMode <$> SeedRatioMode tsp);
    mkField "TrackerList"         "-"                   ((λ s, VStrings (slice_elems h s)) <$> TrackerList tsp);
    mkField "UploadLimit"         "uploadLimit"         (VInt64 <$> UploadLimit tsp);
    mkField "UploadLimited"       "uploadLimited"       (VBool <$> UploadLimited tsp) ].

(** [sil] is [int64(d / time.Minute)] for the duration [d] the field points
    to: Go's integer division truncates toward zero, and dividing by a
    positive constant cannot leave the [int64] range. *)
Definition sil (d : Z) : Z := d `quot` time_Minute.

(** [oneLineList := strings.Join(tsp.TrackerList, "\n")]. *)
Definition oneLineList (l : list string) : string := strings_Join l newline.

(** The intermediary struct [tmp]: the two overloaded fields, set only when
    the payload's field is non-nil, then the embedded pointer to the payload
    itself, which is never nil and carries no tag. *)
Definition fields_tmp (h : Heap) (tsp : TorrentSetPayload) : list Field :=
  [ mkField "SeedIdleLimit" "seedIdleLimit" ((λ d, VInt64 (sil d)) <$> SeedIdleLimit tsp);
    mkField "TrackerList"   "trackerList"
            ((λ s, VString (oneLineList (slice_elems h s))) <$> TrackerList tsp);
    mkField "baseTorrentSetPayload" "" (Some (VStruct (fields_TorrentSetPayload h tsp))) ].

Abbreviation WireMap := (gmap string Value).

(** One turn of the loop over [j]: a non-nil nested field whose tag is not
    ["-"] is stored under its tag. *)
Definition nested_step (cleanPayload : WireMap) (f : Field) : WireMap :=
  match value f with
  | None => cleanPayload
  | Some v =>
      if decide (Tag_json f ≠ "-") then <[Tag_json f := v]> cleanPayload
      else cleanPayload
  end.

Definition nested_loop (cleanPayload : WireMap) (fields : list Field) : WireMap :=
  foldl nested_step cleanPayload fields.

(** One turn of the loop over [i].  [nestedStruct.NumField()] panics when the
    field named [baseTorrentSetPayload] does not point to a struct: [None]. *)
Definition outer_step (cleanPayload : WireMap) (f : Field) : option WireMap :=
  match value f with
  | None => Some cleanPayload
  | Some v =>
      if decide (Name f = "baseTorrentSetPayload") then
        match v with
        | VStruct nested => Some (nested_loop cleanPayload nested)
        | _ => None
        end
      else Some (<[Tag_json f := v]> cleanPayload)
  end.

Fixpoint outer_loop (cleanPayload : WireMap) (fields : list Field) : option WireMap :=
  match fields with
  | [] => Some cleanPayload
  | f :: fields' => m ← outer_step cleanPayload f; outer_loop m fields'
  end.

(** The map handed to [json.Marshal]. *)
Definition cleanPayload (h : Heap) (tsp : TorrentSetPayload) : option WireMap :=
  outer_loop ∅ (fields_tmp h tsp).

Section encoder.
(** [json.Marshal] on a map from strings: bytes and an error.  The encoder
    is the library's; it is a function of the map's keys and contents. *)
Variable json_Marshal : WireMap → list Byte.byte * option error.

Definition MarshalJSON (h : Heap) (tsp : TorrentSetPayload)
  : option (list Byte.byte * option error) :=
  m ← cleanPayload h tsp; Some (json_Marshal m).
End encoder.

(** The attributes of an update request and the specification's table of
    their wire keys and wire values. *)
Inductive Attr : Type :=
| ABandwidthPriority | ADownloadLimit | ADownloadLimited | AFilesWanted
| AFilesUnwanted | AGroup | AHonorsSessionLimits | AIDs | ALabels | ALocation
| APeerLimit | APriorityHigh | APriorityLow | APriorityNormal | AQueuePosition
| ASeedIdleLimit | ASeedIdleMode | ASeedRatioLimit | ASeedRatioMode
| ATrackerList | AUploadLimit | AUploadLimited.

#[global] Instance Attr_eq_dec : EqDecision Attr.
Proof. solve_decision. Defined.

Definition all_attrs : list Attr :=
  [ ABandwidthPriority; ADownloadLimit; ADownloadLimited; AFilesWanted;
    AFilesUnwanted; AGroup; AHonorsSessionLimits; AIDs; ALabels; ALocation;
    APeerLimit; APriorityHigh; APriorityLow; APriorityNormal; AQueuePosition;
    ASeedIdleLimit; ASeedIdleMode; ASeedRatioLimit; ASeedRatioMode;
    ATrackerList; AUploadLimit; AUploadLimited ].

Definition wire_key (a : Attr) : string :=
  match a with
  | ABandwidthPriority => "bandwidthPriority"
  | ADownloadLimit => "downloadLimit"
  | ADownloadLimited => "downloadLimited"
  | AFilesWanted => "files-wanted"
  | AFilesUnwanted => "files-unwanted"
  | AGroup => "group"
  | AHonorsSessionLimits => "honorsSessionLimits"
  | AIDs => "ids"
  | ALabels => "labels"
  | ALocation => "location"
  | APeerLimit => "peer-limit"
  | APriorityHigh => "priority-high"
  | APriorityLow => "priority-low"
  | APriorityNormal => "priority-normal"
  | AQueuePosition => "queuePosition"
  | ASeedIdleLimit => "seedIdleLimit"
  | ASeedIdleMode => "seedIdleMode"
  | ASeedRatioLimit => "seedRatioLimit"
  | ASeedRatioMode => "seedRatioMode"
  | ATrackerList => "trackerList"
  | AUploadLimit => "uploadLimit"
  | AUploadLimited => "uploadLimited"
  end.

(** The wire value of an attribute: [None] when it is unset, else its value
    after the attribute's transformation rule (whole minutes for the idle
    limit, one line-joined string for the tracker list, identity otherwise). *)
Definition wire_value (h : Heap) (tsp : TorrentSetPayload) (a : Attr) : option Value :=
  match a with
  | ABandwidthPriority => VInt64 <$> BandwidthPriority tsp
  | ADownloadLimit => VInt64 <$> DownloadLimit tsp
  | ADownloadLimited => VBool <$> DownloadLimited tsp
  | AFilesWanted => VInt64s <$> FilesWanted tsp
  | AFilesUnwanted => VInt64s <$> FilesUnwanted tsp
  | AGroup => (λ q, VString (deref h q)) <$> Group tsp
  | AHonorsSessionLimits => VBool <$> HonorsSessionLimits tsp
  | AIDs => VInt64s <$> IDs tsp
  | ALabels => (λ s, VStrings (slice_elems h s)) <$> Labels tsp
  | ALocation => (λ q, VString (deref h q)) <$> Location tsp
  | APeerLimit => VInt64 <$> PeerLimit tsp
  | APriorityHigh => VInt64s <$> PriorityHigh tsp
  | APriorityLow => VInt64s <$> PriorityLow tsp
  | APriorityNormal => VInt64s <$> PriorityNormal tsp
  | AQueuePosition => VInt64 <$> QueuePosition tsp
  | ASeedIdleLimit => (λ d, VInt64 (d `quot` 60000000000)) <$> SeedIdleLimit tsp
  | ASeedIdleMode => VInt64 <$> SeedIdleMode tsp
  | ASeedRatioLimit => VFloat64 <$> SeedRatioLimit tsp
  | ASeedRatioMode => VSeedRatioMode <$> SeedRatioMode tsp
  | ATrackerList =>
      (λ s, VString (strings_Join (slice_elems h s) newline)) <$> TrackerList tsp
  | AUploadLimit => VInt64 <$> UploadLimit tsp
  | AUploadLimited => VBool <$> UploadLimited tsp
  end.

(** ** [TorrentSet] *)

Section client.
(** [context.Context] values, the state behind the [*Client] receiver, and
    [c.rpcCall(ctx, method, arguments, nil)], the transport.  The transport
    is not part of this file: it reads the arguments, in the memory they
    live in, and answers with an error or none. *)
Context {Ctx Client : Type}.
Variable rpcCall :
  Client → Ctx → string → Heap → TorrentSetPayload → Client * option error.

(** One call of the transport, as the trace records it. *)
Record Invocation : Type := {
  inv_ctx : Ctx;
  inv_method : string;
  inv_heap : Heap;
  inv_arguments : TorrentSetPayload
}.

(** The memory, the client, and the calls made to the transport so far. *)
Record World : Type := {
  heap : Heap;
  client : Client;
  trace : list Invocation
}.

Definition call_rpcCall (ctx : Ctx) (method : string)
    (arguments : TorrentSetPayload) (w : World) : option error * World :=
  let r := rpcCall (client w) ctx method (heap w) arguments in
  (r.2,
   {| heap := heap w;
      client := r.1;
      trace := trace w ++ [ {| inv_ctx := ctx; inv_method := method;
                               inv_heap := heap w; inv_arguments := arguments |} ] |}).

(** [payload] is the callee's copy of the caller's struct: assigning to its
    field is invisible to the caller, writing through its slices is not.
    The outer [option] is [None] on a panic. *)
Definition TorrentSet (ctx : Ctx) (payload : TorrentSetPayload) (w : World)
  : option (option error * World) :=
  if decide (len_ints (IDs payload) = 0) then
    Some (Some (errors_New "there must be at least one ID"), w)
  else
    let h1 := sort_Strings (heap w) (TrackerList payload) in
    r ← compact_slice h1 (TrackerList payload);
    let payload := set_TrackerList r.2 payload in
    let out := call_rpcCall ctx "torrent-set" payload
                 {| heap := r.1; client := client w; trace := trace w |} in
    match out.1 with
    | Some err =>
        Some (Some (fmt_Errorf_w "'torrent-set' rpc method failed: " err), out.2)
    | None => Some (None, out.2)
    end.
End client.

(** A payload with every attribute unset except the identifier list. *)
Definition only_IDs (ids : list Z) : TorrentSetPayload :=
  {| BandwidthPriority := None; DownloadLimit := None; DownloadLimited := None;
     FilesWanted := None; FilesUnwanted := None; Group := None;
     HonorsSessionLimits := None; IDs := Some ids; Labels := None;
     Location := None; PeerLimit := None; PriorityHigh := None;
     PriorityLow := None; PriorityNormal := None; QueuePosition := None;
     SeedIdleLimit := None; SeedIdleMode := None; SeedRatioLimit := None;
     SeedRatioMode := None; TrackerList := None; UploadLimit := None;
     UploadLimited := None |}.

(** ** Reading the loops

    Two definitions used to state what the loops of [MarshalJSON] leave in
    the map. *)

(** The map after the two overloaded fields of [tmp] have been visited. *)
Definition overloaded (h : Heap) (tsp : TorrentSetPayload) : WireMap :=
  let m1 : WireMap :=
    match SeedIdleLimit tsp with
    | Some d => <["seedIdleLimit" := VInt64 (sil d)]> ∅
    | None => ∅
    end in
  match TrackerList tsp with
  | Some s => <["trackerList" := VString (oneLineList (slice_elems h s))]> m1
  | None => m1
  end.

(** The memory and the payload that [TorrentSet] hands to the transport: its
    two normalization statements, run on memory [h]. *)
Definition normalized (payload : TorrentSetPayload) (h : Heap)
  : option (Heap * TorrentSetPayload) :=
  r ← compact_slice (sort_Strings h (TrackerList payload)) (TrackerList payload);
  Some (r.1, set_TrackerList r.2 payload).

(** The other fields whose strings live in memory, [Labels], [Group] and
    [Location], share no element with [TrackerList]. *)
Definition TrackerList_apart (p : TorrentSetPayload) : Prop :=
  ∀ t, TrackerList p = Some t →
    (∀ l, Labels p = Some l → slice_disjoint l t)
    ∧ (∀ q, Group p = Some q → slice_disjoint (pointee q) t)
    ∧ (∀ q, Location p = Some q → slice_disjoint (pointee q) t).

(** What [reflect] shows of the payload's fields other than [TrackerList]:
    all the fields, read in memory [h], with [TrackerList] blanked. *)
Definition other_fields (h : Heap) (p : TorrentSetPayload) : list Field :=
  fields_TorrentSetPayload h (set_TrackerList None p).

(** What one nested field does to the entry of key [k], whose content so far
    is [o]. *)
Definition last_write (k : string) (o : option Value) (f : Field) : option Value :=
  if bool_decide (Tag_json f = k ∧ Tag_json f ≠ "-")
  then from_option Some o (value f)
  else o.

(** The attributes whose Go type is a slice, and the two states of a slice
    the specification tells apart. *)
Definition list_attrs : list Attr :=
  [ AFilesWanted; AFilesUnwanted; AIDs; ALabels; APriorityHigh; APriorityLow;
    APriorityNormal; ATrackerList ].

Definition list_attr_len (tsp : TorrentSetPayload) (a : Attr) : option nat :=
  match a with
  | AFilesWanted => length <$> FilesWanted tsp
  | AFilesUnwanted => length <$> FilesUnwanted tsp
  | AIDs => length <$> IDs tsp
  | ALabels => len <$> Labels tsp
  | APriorityHigh => length <$> PriorityHigh tsp
  | APriorityLow => length <$> PriorityLow tsp
  | APriorityNormal => length <$> PriorityNormal tsp
  | ATrackerList => len <$> TrackerList tsp
  | _ => None
  end.

(** Nil: absent. *)
Definition absent (tsp : TorrentSetPayload) (a : Attr) : Prop :=
  list_attr_len tsp a = None.

(** Non-nil and of length zero: present but empty. *)
Definition present_empty (tsp : TorrentSetPayload) (a : Attr) : Prop :=
  list_attr_len tsp a = Some 0.

(** A wire value that is an empty list. *)
Definition empty_list_value (v : Value) : Prop := v = VInt64s [] ∨ v = VStrings [].

(** ** Sample data *)

Definition sample_heap : Heap :=
  {[ 0 := ["http://b"; "http://a"; "http://a"]; 1 := ["http://a"; "http://b"] ]}.

(** Two torrents; the download limit set to 0 and its switch to false, no
    file wanted, an idle limit of 90 seconds, and the tracker list
    ["http://b", "http://a", "http://a"]. *)
Definition sample_payload : TorrentSetPayload :=
  {| BandwidthPriority := None; DownloadLimit := Some 0%Z;
     DownloadLimited := Some false; FilesWanted := Some [];
     FilesUnwanted := None; Group := None; HonorsSessionLimits := None;
     IDs := Some [1%Z; 2%Z]; Labels := None; Location := None;
     PeerLimit := None; PriorityHigh := None; PriorityLow := None;
     PriorityNormal := None; QueuePosition := None;
     SeedIdleLimit := Some (90 * time_Second)%Z; SeedIdleMode := None;
     SeedRatioLimit := None; SeedRatioMode := None;
     TrackerList := Some {| arr := 0; off := 0; len := 3 |};
     UploadLimit := None; UploadLimited := None |}.

(** The caller made one list and gave it both as labels and as trackers:
    [l := []string{"http://b", "http://a", "http://a"}], [Labels: l],
    [TrackerList: l]. *)
Definition shared_payload : TorrentSetPayload :=
  {| BandwidthPriority := None; DownloadLimit := None; DownloadLimited := None;
     FilesWanted := None; FilesUnwanted := None; Group := None;
     HonorsSessionLimits := None; IDs := Some [1%Z];
     Labels := Some {| arr := 0; off := 0; len := 3 |};
     Location := None; PeerLimit := None; PriorityHigh := None;
     PriorityLow := None; PriorityNormal := None; QueuePosition := None;
     SeedIdleLimit := None; SeedIdleMode := None; SeedRatioLimit := None;
     SeedRatioMode := None;
     TrackerList := Some {| arr := 0; off := 0; len := 3 |};
     UploadLimit := None; UploadLimited := None |}.

(** The caller points [Group] at the first tracker:
    [l := []string{"http://b", "http://a", "http://a"}], [Group: &l[0]],
    [TrackerList: l]. *)
Definition pointing_payload : TorrentSetPayload :=
  {| BandwidthPriority := None; DownloadLimit := None; DownloadLimited := None;
     FilesWanted := None; FilesUnwanted := None;
     Group := Some {| parr := 0; pidx := 0 |};
     HonorsSessionLimits := None; IDs := Some [1%Z]; Labels := None;
     Location := None; PeerLimit := None; PriorityHigh := None;
     PriorityLow := None; PriorityNormal := None; QueuePosition := None;
     SeedIdleLimit := None; SeedIdleMode := None; SeedRatioLimit := None;
     SeedRatioMode := None;
     TrackerList := Some {| arr := 0; off := 0; len := 3 |};
     UploadLimit := None; UploadLimited := None |}.

(** The same payload with another tracker list, ["http://a", "http://b"],
    in an array of its own; [Labels] is still the first list. *)
Definition shared_payload_resorted : TorrentSetPayload :=
  set_TrackerList (Some {| arr := 1; off := 0; len := 2 |}) shared_payload.

(** One torrent and a tracker list that is present but empty. *)
Definition sample_no_trackers : TorrentSetPayload :=
  set_TrackerList (Some {| arr := 0; off := 0; len := 0 |}) (only_IDs [1%Z]).

(** A transport that counts its calls and refuses the connection, and one
    that accepts. *)
Definition refusing_rpcCall (c : nat) (_ : unit) (_ : string) (_ : Heap)
    (_ : TorrentSetPayload) : nat * option error :=
  (S c, Some (errorString "connection refused")).

Definition accepting_rpcCall (c : nat) (_ : unit) (_ : string) (_ : Heap)
    (_ : TorrentSetPayload) : nat * option error :=
  (S c, None).

(** A stand-in for [json.Marshal] that writes one byte per key. *)
Definition counting_json_Marshal (m : WireMap) : list Byte.byte * option error :=
  (replicate (size m) Byte.x00, None).

Definition sample_world : @World unit nat :=
  {| heap := sample_heap; client := 0; trace := [] |}.

(** ** Notions used by the further properties *)

(** The attributes of a payload that are set (non-nil), in declaration
    order. *)
Definition set_attrs (h : Heap) (tsp : TorrentSetPayload) : list Attr :=
  filter (λ a, is_Some (wire_value h tsp a)) all_attrs.

(** No byte of the string is a line break. *)
Fixpoint newline_free (s : string) : Prop :=
  match s with
  | EmptyString => True
  | String c s' => c ≠ ascii_of_nat 10 ∧ newline_free s'
  end.

(** A tracker list in two tiers, "http://b" then "http://a", with a blank
    entry between them. *)
Definition tiered_heap : Heap := {[ 0 := ["http://b"; ""; "http://a"] ]}.

Definition tiered_payload : TorrentSetPayload :=
  set_TrackerList (Some {| arr := 0; off := 0; len := 3 |}) (only_IDs [1%Z]).

Definition tiered_world : @World unit nat :=
  {| heap := tiered_heap; client := 0; trace := [] |}.

(** * Properties *)

(** ** [compact] *)

Section compact_facts.
Context {E : Type} `{EqDecision E}.
Implicit Types (s l rest pre mid : list E) (prev p x : E).

Lemma length_uniq_from prev l : length (uniq_from prev l) ≤ length l.
Proof.
  revert prev; induction l as [|x l IH]; intros prev; simpl; [lia|].
  case_decide; simpl; specialize (IH x); lia.
Qed.

Lemma length_uniq l : length (uniq l) ≤ length l.
Proof. destruct l as [|x l]; simpl; [lia|]. pose proof (length_uniq_from x l). lia. Qed.

(** Invariant of the inner loop.  The array is [pre ++ mid ++ prev :: rest]:
    [pre] is what has been kept, [mid] are slots already read and free to
    be overwritten, [prev] is [s2[k2-1]] and [rest] is still to be read. *)
Lemma compact_inner_spec rest : ∀ k0 pre mid prev k k2,
  k = length pre →
  k0 + k2 = S (length pre + length mid) →
  1 ≤ k2 →
  compact_inner (length rest) k0 (pre ++ mid ++ prev :: rest) k k2 =
    Some (pre ++ uniq_from prev rest
              ++ drop (length (uniq_from prev rest)) (mid ++ prev :: rest),
          k + length (uniq_from prev rest)).
Proof.
  induction rest as [|a rest IH]; intros k0 pre mid prev k k2 Hk Hpos Hk2.
  - simpl. do 2 f_equal. lia.
  - cbn [length compact_inner].
    assert (Ha : (pre ++ mid ++ prev :: a :: rest) !! (k0 + k2) = Some a).
    { rewrite lookup_app_r by lia. rewrite lookup_app_r by lia.
      replace (k0 + k2 - length pre - length mid) with 1 by lia. done. }
    assert (Hb : (pre ++ mid ++ prev :: a :: rest) !! (k0 + (k2 - 1)) = Some prev).
    { rewrite lookup_app_r by lia. rewrite lookup_app_r by lia.
      replace (k0 + (k2 - 1) - length pre - length mid) with 0 by lia. done. }
    rewrite Ha, Hb. simpl.
    destruct (decide (a = prev)) as [->|Hne].
    + rewrite decide_False by (intros Hn; by apply Hn).
      replace (mid ++ prev :: prev :: rest) with ((mid ++ [prev]) ++ prev :: rest)
        by (by rewrite <- app_assoc).
      rewrite (IH k0 pre (mid ++ [prev]) prev k (S k2)); [done|done| |lia].
      rewrite length_app. simpl. lia.
    + rewrite decide_True by done.
      rewrite decide_True by (rewrite !length_app; simpl; lia).
      destruct mid as [|m mid].
      * simpl.
        replace (<[k:=a]> (pre ++ prev :: a :: rest)) with ((pre ++ [a]) ++ [] ++ a :: rest).
        2:{ subst k. rewrite insert_app_r_alt by lia. rewrite Nat.sub_diag. simpl.
            by rewrite <- app_assoc. }
        rewrite (IH k0 (pre ++ [a]) [] a (S k) (S k2)).
        -- rewrite <- app_assoc. simpl. do 2 f_equal. lia.
        -- rewrite length_app. simpl. lia.
        -- rewrite length_app. simpl in *. lia.
        -- lia.
      * replace (<[k:=a]> (pre ++ (m :: mid) ++ prev :: a :: rest))
          with ((pre ++ [a]) ++ (mid ++ [prev]) ++ a :: rest).
        2:{ subst k. rewrite insert_app_r_alt by lia. rewrite Nat.sub_diag. simpl.
            by rewrite <- !app_assoc. }
        rewrite (IH k0 (pre ++ [a]) (mid ++ [prev]) a (S k) (S k2)).
        -- rewrite <- !app_assoc. simpl. do 2 f_equal. lia.
        -- rewrite length_app. simpl. lia.
        -- rewrite !length_app. simpl in *. lia.
        -- lia.
Qed.

(** Invariant of the outer loop: [pre ++ [p]] has been scanned and holds no
    adjacent equal pair. *)
Lemma compact_scan_spec rest : ∀ pre p,
  compact_scan (length rest) (pre ++ p :: rest) (S (length pre)) =
    Some (pre ++ p :: uniq_from p rest
              ++ drop (length (uniq_from p rest)) rest,
          S (length pre) + length (uniq_from p rest)).
Proof.
  induction rest as [|a rest IH]; intros pre p.
  - simpl. rewrite length_app. simpl. do 2 f_equal. lia.
  - cbn [length compact_scan].
    assert (Ha : (pre ++ p :: a :: rest) !! S (length pre) = Some a).
    { rewrite lookup_app_r by lia.
      replace (S (length pre) - length pre) with 1 by lia. done. }
    assert (Hb : (pre ++ p :: a :: rest) !! (S (length pre) - 1) = Some p).
    { rewrite lookup_app_r by lia.
      replace (S (length pre) - 1 - length pre) with 0 by lia. done. }
    rewrite Ha, Hb. simpl.
    destruct (decide (a = p)) as [->|Hne].
    + replace (length (pre ++ p :: p :: rest) - S (length pre) - 1) with (length rest)
        by (rewrite length_app; simpl; lia).
      replace (pre ++ p :: p :: rest) with ((pre ++ [p]) ++ [] ++ p :: rest)
        by (by rewrite <- app_assoc).
      rewrite (compact_inner_spec rest (S (length pre)) (pre ++ [p]) [] p (S (length pre)) 1).
      * rewrite <- app_assoc. simpl. done.
      * rewrite length_app. simpl. lia.
      * rewrite length_app. simpl. lia.
      * lia.
    + replace (pre ++ p :: a :: rest) with ((pre ++ [p]) ++ a :: rest)
        by (by rewrite <- app_assoc).
      replace (S (S (length pre))) with (S (length (pre ++ [p])))
        by (rewrite length_app; simpl; lia).
      rewrite IH. rewrite <- app_assoc. simpl.
      rewrite length_app. simpl. do 2 f_equal. lia.
Qed.

(** What [compact] computes, on every input: the slice [s[:k]] holds
    [uniq s], and the array behind it keeps its old elements from index [k]
    on. *)
Lemma compact_eq (s : list E) :
  compact s = Some (uniq s ++ drop (length (uniq s)) s, length (uniq s)).
Proof.
  unfold compact. case_decide as Hlen.
  - destruct s as [|x [|y s]]; simpl in *; try done. lia.
  - destruct s as [|x s]; [simpl in *; lia|].
    replace (length (x :: s) - 1) with (length s) by (simpl; lia).
    exact (compact_scan_spec s [] x).
Qed.

Lemma compacted_eq (s : list E) : compacted s = Some (uniq s).
Proof.
  unfold compacted. rewrite compact_eq. simpl.
  by rewrite take_app_length.
Qed.

Lemma no_adjacent_eq_uniq_from prev l : no_adjacent_eq (prev :: uniq_from prev l).
Proof.
  revert prev; induction l as [|x l IH]; intros prev; simpl; [constructor|].
  case_decide as Hx; [subst; apply IH|].
  constructor; [congruence|apply IH].
Qed.

Lemma no_adjacent_eq_uniq l : no_adjacent_eq (uniq l).
Proof. destruct l; [constructor|apply no_adjacent_eq_uniq_from]. Qed.

Lemma uniq_fixed l : no_adjacent_eq l → uniq l = l.
Proof.
  induction 1 as [|x|x y l Hne _ IH]; simpl in *; try done.
  rewrite decide_False by congruence. by injection IH as ->.
Qed.

Lemma sublist_uniq_from prev l : uniq_from prev l `sublist_of` l.
Proof.
  revert prev; induction l as [|x l IH]; intros prev; simpl; [constructor|].
  case_decide; [apply sublist_cons|apply sublist_skip]; apply IH.
Qed.

Lemma sublist_uniq l : uniq l `sublist_of` l.
Proof. destruct l; [constructor|apply sublist_skip, sublist_uniq_from]. Qed.

Lemma elem_of_uniq_from x prev l : x ∈ prev :: uniq_from prev l ↔ x ∈ prev :: l.
Proof.
  revert prev; induction l as [|y l IH]; intros prev; simpl; [done|].
  case_decide as Hy.
  - subst y. rewrite IH, !elem_of_cons. tauto.
  - rewrite (elem_of_cons _ x prev), IH, (elem_of_cons _ x prev). done.
Qed.

Lemma elem_of_uniq x l : x ∈ uniq l ↔ x ∈ l.
Proof. destruct l; [done|apply elem_of_uniq_from]. Qed.

(** A sorted list, once its adjacent duplicates are gone, is sorted still and
    repeats nothing. *)
Lemma uniq_from_sorted (R : relation E) `{!AntiSymm (=) R} prev l :
  StronglySorted R (prev :: l) →
  StronglySorted R (prev :: uniq_from prev l) ∧ NoDup (prev :: uniq_from prev l).
Proof.
  revert prev; induction l as [|x l IH]; intros prev Hs; simpl.
  - split; [done|]. apply NoDup_singleton.
  - apply StronglySorted_cons in Hs as [Hall Hs].
    destruct (IH x Hs) as [IHs IHn].
    case_decide as Hx; [by subst x|].
    assert (Hin : ∀ y, y ∈ x :: uniq_from x l → R prev y ∧ prev ≠ y).
    { intros y Hy. rewrite elem_of_uniq_from in Hy.
      rewrite Forall_forall in Hall. split; [by apply Hall|].
      intros <-. apply Hx.
      apply StronglySorted_cons in Hs as [Hxl _]. rewrite Forall_forall in Hxl.
      apply (anti_symm R).
      - apply elem_of_cons in Hy as [->|Hy]; [done|by apply Hxl].
      - apply Hall. left. }
    split.
    + apply StronglySorted_cons. split; [|done].
      apply Forall_forall. intros y Hy. by apply Hin.
    + apply NoDup_cons. split; [|done].
      intros Hp. by destruct (Hin _ Hp).
Qed.

Lemma uniq_sorted (R : relation E) `{!AntiSymm (=) R} l :
  StronglySorted R l → StronglySorted R (uniq l) ∧ NoDup (uniq l).
Proof.
  destruct l as [|x l]; [split; constructor|]. by apply uniq_from_sorted.
Qed.

(** C3. On every sequence [s], sorted ascending or not, [compact] returns
    [s[:k]] over the array of [s], and that slice holds exactly the
    elements left when [s] is scanned left to right and each element equal
    to its immediate predecessor is removed (so the first of each run of
    equals stays, in order).  The array keeps its length and, from index
    [k] on, its elements: the result is a prefix of the input reshaped in
    place.  A sequence of length 0 or 1 comes back unchanged. *)
Theorem compact_removes_adjacent_duplicates s :
  ∃ s' k, compact s = Some (s', k)
    ∧ take k s' = uniq s
    ∧ k ≤ length s
    ∧ length s' = length s
    ∧ drop k s' = drop k s
    ∧ (length s < 2 → s' = s ∧ k = length s).
Proof.
  exists (uniq s ++ drop (length (uniq s)) s), (length (uniq s)).
  pose proof (length_uniq s) as Hle.
  split; [apply compact_eq|].
  split; [by rewrite take_app_length|].
  split; [done|].
  split; [rewrite length_app, length_drop; lia|].
  split; [by rewrite drop_app_length|].
  intros Hlen. destruct s as [|x [|y s]]; simpl in *; [done|done|lia].
Qed.

(** C4. For every sequence [s], the slice [compact] returns has no two
    adjacent equal elements, is a subsequence of [s] in the order of [s] with
    the same elements occurring, and is a fixed point: [compact] applied to
    it returns it whole and leaves its elements as they are.  When [s] is
    sorted, by any transitive and antisymmetric relation, the result is
    sorted too and holds each element once. *)
Theorem compact_no_adjacent_sublist_idempotent s :
  ∃ c, compacted s = Some c
    ∧ no_adjacent_eq c
    ∧ c `sublist_of` s
    ∧ (∀ x, x ∈ c ↔ x ∈ s)
    ∧ compacted c = Some c
    ∧ compact c = Some (c, length c)
    ∧ (∀ R : relation E, Transitive R → AntiSymm (=) R →
         Sorted R s → Sorted R c ∧ NoDup c).
Proof.
  exists (uniq s).
  pose proof (no_adjacent_eq_uniq s) as Hn.
  split; [apply compacted_eq|].
  split; [done|].
  split; [apply sublist_uniq|].
  split; [intros x; apply elem_of_uniq|].
  split; [by rewrite compacted_eq, uniq_fixed|].
  split; [rewrite compact_eq, (uniq_fixed _ Hn), drop_all, app_nil_r; done|].
  intros R Htrans Hanti Hs.
  destruct (uniq_sorted R s) as [Hsu Hnd]; [by apply Sorted_StronglySorted|].
  split; [by apply StronglySorted_Sorted|done].
Qed.

End compact_facts.

(** ** The order [sort.Strings] sorts by *)

Lemma compare_as_OT (a b : string) :
  String.compare a b = OrdersEx.String_as_OT.compare a b.
Proof.
  revert b; induction a as [|c a IH]; intros [|d b]; reflexivity.
Qed.

Lemma string_le_lt_eq (a b : string) :
  string_le a b ↔ OrdersEx.String_as_OT.lt a b ∨ a = b.
Proof.
  unfold string_le, String.leb. rewrite compare_as_OT.
  destruct (OrdersEx.String_as_OT.compare_spec a b) as [Heq|Hlt|Hgt].
  - split; [by right|done].
  - split; [by left|done].
  - split; [done|]. intros [Hlt| ->].
    + exfalso. apply (irreflexivity OrdersEx.String_as_OT.lt a).
      by transitivity b.
    + exfalso. by apply (irreflexivity OrdersEx.String_as_OT.lt b).
Qed.

#[global] Instance string_le_total : Total string_le.
Proof. intros a b. apply String.leb_total. Qed.

#[global] Instance string_le_antisym : AntiSymm (=) string_le.
Proof. intros a b. apply String.leb_antisym. Qed.

#[global] Instance string_le_trans : Transitive string_le.
Proof.
  intros a b c. rewrite !string_le_lt_eq.
  intros [Hab| ->] [Hbc| ->]; auto.
  left. by transitivity b.
Qed.

Lemma sort_Strings_list_sorted (x : list string) :
  StronglySorted string_le (sort_Strings_list x).
Proof. apply StronglySorted_merge_sort; apply _. Qed.

Lemma sort_Strings_list_perm (x : list string) : sort_Strings_list x ≡ₚ x.
Proof. apply merge_sort_Permutation. Qed.

(** Sorting and compacting depends only on which strings occur. *)
Lemma uniq_sort_canonical (l1 l2 : list string) :
  (∀ x, x ∈ l1 ↔ x ∈ l2) →
  uniq (sort_Strings_list l1) = uniq (sort_Strings_list l2).
Proof.
  intros Hsame.
  destruct (uniq_sorted string_le _ (sort_Strings_list_sorted l1)) as [Hs1 Hn1].
  destruct (uniq_sorted string_le _ (sort_Strings_list_sorted l2)) as [Hs2 Hn2].
  apply (StronglySorted_unique string_le); [done|done|].
  apply NoDup_Permutation; [done|done|].
  intros x. rewrite !elem_of_uniq, !sort_Strings_list_perm. apply Hsame.
Qed.

(** ** Slices in memory *)

Section slices.
Implicit Types (h : Heap) (s : slice) (w : list string).

Lemma length_slice_elems h s : slice_wf h s → length (slice_elems h s) = len s.
Proof.
  intros (a & Ha & Hle). unfold slice_elems. rewrite Ha. simpl.
  rewrite length_take, length_drop. lia.
Qed.

Lemma slice_elems_empty h s : len s = 0 → slice_elems h s = [].
Proof. intros Hl. unfold slice_elems. by rewrite Hl. Qed.

Lemma slice_store_lookup h s w a :
  h !! arr s = Some a →
  slice_store h s w !! arr s
    = Some (take (off s) a ++ w ++ drop (off s + length w) a).
Proof. intros Ha. unfold slice_store. rewrite Ha. apply lookup_insert_eq. Qed.

Lemma slice_store_lookup_ne h s w (i : nat) :
  i ≠ arr s → slice_store h s w !! i = h !! i.
Proof.
  intros Hi. unfold slice_store. destruct (h !! arr s); [|done].
  by rewrite lookup_insert_ne.
Qed.

Lemma slice_store_wf h s w :
  slice_wf h s → length w = len s → slice_wf (slice_store h s w) s.
Proof.
  intros (a & Ha & Hle) Hw. eexists. split; [by apply slice_store_lookup|].
  rewrite !length_app, length_take, length_drop. lia.
Qed.

(** Reading back what was stored. *)
Lemma slice_elems_store h s w :
  slice_wf h s → length w = len s → slice_elems (slice_store h s w) s = w.
Proof.
  intros (a & Ha & Hle) Hw. unfold slice_elems.
  rewrite (slice_store_lookup _ _ _ a Ha). simpl.
  rewrite drop_app_length' by (rewrite length_take; lia).
  rewrite take_app_length' by lia. done.
Qed.

(** A shorter slice on the same elements reads a prefix. *)
Lemma slice_elems_store_prefix h s w k :
  slice_wf h s → length w = len s → k ≤ len s →
  slice_elems (slice_store h s w) {| arr := arr s; off := off s; len := k |}
    = take k w.
Proof.
  intros (a & Ha & Hle) Hw Hk. unfold slice_elems. simpl.
  rewrite (slice_store_lookup _ _ _ a Ha). simpl.
  rewrite drop_app_length' by (rewrite length_take; lia).
  by rewrite take_app_le by lia.
Qed.

(** A second store on the same slice replaces the first. *)
Lemma slice_store_store h s w1 w2 :
  slice_wf h s → length w1 = len s → length w2 = len s →
  slice_store (slice_store h s w1) s w2 = slice_store h s w2.
Proof.
  intros (a & Ha & Hle) Hw1 Hw2. unfold slice_store at 1.
  rewrite (slice_store_lookup _ _ _ a Ha).
  unfold slice_store. rewrite Ha, insert_insert_eq. f_equal.
  rewrite take_app_length' by (rewrite length_take; lia).
  do 2 f_equal.
  rewrite drop_app_ge by (rewrite length_take; lia).
  rewrite length_take.
  rewrite drop_app_ge by lia.
  rewrite drop_drop. f_equal. lia.
Qed.

(** The elements of the array before and after the slice stay. *)
Lemma slice_store_outside h s w a :
  h !! arr s = Some a → off s + len s ≤ length a → length w = len s →
  ∃ a', slice_store h s w !! arr s = Some a'
        ∧ length a' = length a
        ∧ ∀ i : nat, i < off s ∨ off s + len s ≤ i → a' !! i = a !! i.
Proof.
  intros Ha Hle Hw. eexists. split; [by apply slice_store_lookup|].
  split.
  - rewrite !length_app, length_take, length_drop. lia.
  - intros i [Hi|Hi].
    + rewrite lookup_app_l by (rewrite length_take; lia).
      by rewrite lookup_take_lt.
    + rewrite lookup_app_r by (rewrite length_take; lia).
      rewrite lookup_app_r by (rewrite length_take; lia).
      rewrite lookup_drop, length_take. f_equal. lia.
Qed.

(** A slice that shares no element with [s] reads what it read before. *)
Lemma slice_elems_store_disjoint h s w s' :
  slice_wf h s → length w = len s → slice_disjoint s' s →
  slice_elems (slice_store h s w) s' = slice_elems h s'.
Proof.
  intros (a & Ha & Hle) Hw Hd. unfold slice_elems.
  destruct (decide (arr s' = arr s)) as [Heq|Hne].
  2:{ by rewrite slice_store_lookup_ne. }
  rewrite Heq, (slice_store_lookup _ _ _ a Ha), Ha. simpl.
  destruct Hd as [Hd|[Hd|Hd]]; [done| |].
  - apply list_eq. intros i.
    destruct (decide (i < len s')) as [Hi|Hi].
    + rewrite !lookup_take_lt, !lookup_drop by done.
      rewrite lookup_app_l by (rewrite length_take; lia).
      rewrite lookup_take_lt by lia. done.
    + rewrite !lookup_take_ge by lia. done.
  - apply list_eq. intros i.
    destruct (decide (i < len s')) as [Hi|Hi].
    + rewrite !lookup_take_lt, !lookup_drop by done.
      rewrite lookup_app_r by (rewrite length_take; lia).
      rewrite lookup_app_r by (rewrite length_take; lia).
      rewrite lookup_drop, length_take. f_equal. lia.
    + rewrite !lookup_take_ge by lia. done.
Qed.

End slices.

(** ** The loops of [MarshalJSON] *)

Lemma nested_loop_lookup (fields : list Field) : ∀ (m : WireMap) (k : string),
  nested_loop m fields !! k = foldl (last_write k) (m !! k) fields.
Proof.
  induction fields as [|f fields IH]; intros m k; [done|].
  unfold nested_loop in *. simpl. rewrite IH. f_equal.
  unfold nested_step, last_write. destruct f as [n t [v|]]; simpl;
    [|by case_bool_decide].
  case_decide as Htag; case_bool_decide as Hk.
  - destruct Hk as [-> _]. by rewrite lookup_insert_eq.
  - rewrite lookup_insert_ne; [done|]. intros ->. by apply Hk.
  - by destruct Hk.
  - done.
Qed.

Lemma foldl_last_write_is_Some (k : string) (fields : list Field) :
  ∀ o, is_Some (foldl (last_write k) o fields) →
       is_Some o ∨ (k ∈ Tag_json <$> fields) ∧ k ≠ "-".
Proof.
  induction fields as [|f fields IH]; intros o Hs; simpl in *; [by left|].
  destruct (IH _ Hs) as [Ho|[Hin Hk]].
  - unfold last_write in Ho. case_bool_decide as Hf; [|by left].
    destruct Hf as [<- Hne]. right. split; [apply elem_of_cons; by left|done].
  - right. split; [apply elem_of_cons; by right|done].
Qed.

Lemma cleanPayload_eq (h : Heap) (tsp : TorrentSetPayload) :
  cleanPayload h tsp
    = Some (nested_loop (overloaded h tsp) (fields_TorrentSetPayload h tsp)).
Proof.
  unfold cleanPayload, fields_tmp, overloaded.
  destruct (SeedIdleLimit tsp), (TrackerList tsp); reflexivity.
Qed.

Lemma overloaded_is_Some (h : Heap) (tsp : TorrentSetPayload) (k : string) :
  is_Some (overloaded h tsp !! k) → k = "seedIdleLimit" ∨ k = "trackerList".
Proof.
  unfold overloaded.
  destruct (SeedIdleLimit tsp), (TrackerList tsp); intros [v Hv];
    repeat (apply lookup_insert_Some in Hv as [[<- _]|[_ Hv]]; [by auto|]);
    by rewrite lookup_empty in Hv.
Qed.

(** Each attribute's wire key holds the attribute's wire value. *)
Lemma cleanPayload_wire_value (h : Heap) (tsp : TorrentSetPayload) (a : Attr) :
  nested_loop (overloaded h tsp) (fields_TorrentSetPayload h tsp) !! wire_key a
    = wire_value h tsp a.
Proof.
  rewrite nested_loop_lookup. unfold overloaded.
  destruct tsp as [f1 f2 f3 f4 f5 f6 f7 f8 f9 f10 f11 f12 f13 f14 f15 f16 f17
                   f18 f19 f20 f21 f22].
  cbn [SeedIdleLimit TrackerList].
  destruct f16 as [d|], f20 as [s|]; destruct a; vm_compute;
    try reflexivity;
    match goal with
    | |- context [match ?x with _ => _ end] => is_var x; destruct x; reflexivity
    end.
Qed.

Lemma tags_are_wire_keys (h : Heap) (tsp : TorrentSetPayload) :
  Forall (λ t, t = "-" ∨ t ∈ wire_key <$> all_attrs)
         (Tag_json <$> fields_TorrentSetPayload h tsp).
Proof. apply (bool_decide_unpack _). vm_compute. exact I. Qed.

(** No other key is present. *)
Lemma cleanPayload_keys (h : Heap) (tsp : TorrentSetPayload) (k : string) :
  is_Some (nested_loop (overloaded h tsp) (fields_TorrentSetPayload h tsp) !! k) →
  ∃ a, k = wire_key a.
Proof.
  rewrite nested_loop_lookup. intros Hs.
  apply foldl_last_write_is_Some in Hs as [Ho|[Hin Hk]].
  - apply overloaded_is_Some in Ho as [->| ->];
      [by exists ASeedIdleLimit|by exists ATrackerList].
  - pose proof (tags_are_wire_keys h tsp) as Hall.
    rewrite Forall_forall in Hall. destruct (Hall k Hin) as [->|Ha]; [done|].
    apply list_elem_of_fmap in Ha as (a & -> & _). by exists a.
Qed.

(** Two payloads whose attributes have the same wire values encode alike. *)
Lemma cleanPayload_ext (h1 h2 : Heap) (p1 p2 : TorrentSetPayload) :
  (∀ a, wire_value h1 p1 a = wire_value h2 p2 a) →
  cleanPayload h1 p1 = cleanPayload h2 p2.
Proof.
  intros Hv. rewrite !cleanPayload_eq. f_equal. apply map_eq. intros k.
  assert (Hkey : ∀ a, k = wire_key a →
    nested_loop (overloaded h1 p1) (fields_TorrentSetPayload h1 p1) !! k
    = nested_loop (overloaded h2 p2) (fields_TorrentSetPayload h2 p2) !! k).
  { intros a ->. by rewrite !cleanPayload_wire_value. }
  destruct (nested_loop (overloaded h1 p1) _ !! k) as [v|] eqn:H1.
  - destruct (cleanPayload_keys h1 p1 k) as [a Ha]; [by rewrite H1|].
    exact (Hkey a Ha).
  - destruct (nested_loop (overloaded h2 p2) _ !! k) as [v|] eqn:H2; [|done].
    destruct (cleanPayload_keys h2 p2 k) as [a Ha]; [by rewrite H2|].
    discriminate (Hkey a Ha).
Qed.

Lemma wire_key_inj (a b : Attr) : wire_key a = wire_key b → a = b.
Proof. destruct a, b; intros Hk; try reflexivity; discriminate Hk. Qed.

(** ** The normalization step of [TorrentSet] *)

Lemma compact_slice_eq (h : Heap) (s : slice) :
  compact_slice h (Some s)
  = Some (slice_store h s (uniq (slice_elems h s)
                           ++ drop (length (uniq (slice_elems h s))) (slice_elems h s)),
          Some {| arr := arr s; off := off s;
                  len := length (uniq (slice_elems h s)) |}).
Proof. unfold compact_slice. by rewrite compact_eq. Qed.

Lemma normalized_total (p : TorrentSetPayload) (h : Heap) :
  ∃ h' tl, normalized p h = Some (h', set_TrackerList tl p).
Proof.
  unfold normalized. destruct (TrackerList p) as [s|]; simpl.
  - rewrite compact_eq. simpl. eauto.
  - eauto.
Qed.

Lemma length_uniq_drop (l : list string) :
  length (uniq l ++ drop (length (uniq l)) l) = length l.
Proof.
  pose proof (length_uniq l). rewrite length_app, length_drop. lia.
Qed.

Lemma normalized_Some (p : TorrentSetPayload) (h : Heap) (s : slice) :
  TrackerList p = Some s → slice_wf h s →
  let sorted := sort_Strings_list (slice_elems h s) in
  normalized p h
  = Some (slice_store h s (uniq sorted ++ drop (length (uniq sorted)) sorted),
          set_TrackerList
            (Some {| arr := arr s; off := off s; len := length (uniq sorted) |}) p).
Proof.
  intros Ht Hwf. cbv zeta. unfold normalized. rewrite Ht. cbn [sort_Strings].
  set (sorted := sort_Strings_list (slice_elems h s)).
  assert (Hlen : length sorted = len s).
  { unfold sorted. rewrite sort_Strings_list_perm. by apply length_slice_elems. }
  rewrite compact_slice_eq.
  rewrite (slice_elems_store h s sorted Hwf Hlen). simpl.
  rewrite slice_store_store; [done|done|done|].
  by rewrite length_uniq_drop.
Qed.

(** ** The encoder *)

(** C1. For every payload, [MarshalJSON] hands [json.Marshal] a map that
    holds exactly the set attributes under their wire keys: the key of every
    attribute holds the attribute's wire value when the attribute is set and
    is missing when it is nil; no other key is present; distinct attributes
    have distinct keys; an integer set to 0 and a boolean set to false are
    present with those values; and with only the identifier list set the map
    has the single key [ids]. *)
Theorem MarshalJSON_exactly_the_set_attributes (h : Heap) (tsp : TorrentSetPayload) :
  ∃ m : WireMap,
    cleanPayload h tsp = Some m
    ∧ (∀ json_Marshal, MarshalJSON json_Marshal h tsp = Some (json_Marshal m))
    ∧ (∀ a, m !! wire_key a = wire_value h tsp a)
    ∧ (∀ k, is_Some (m !! k) → ∃ a, k = wire_key a ∧ is_Some (wire_value h tsp a))
    ∧ (∀ a b, wire_key a = wire_key b → a = b)
    ∧ (DownloadLimit tsp = Some 0%Z → m !! "downloadLimit" = Some (VInt64 0))
    ∧ (DownloadLimited tsp = Some false → m !! "downloadLimited" = Some (VBool false))
    ∧ (∀ ids, tsp = only_IDs ids → m = {[ "ids" := VInt64s ids ]} ∧ size m = 1).
Proof.
  eexists. split; [apply cleanPayload_eq|].
  split; [intros jm; unfold MarshalJSON; by rewrite cleanPayload_eq|].
  split; [apply cleanPayload_wire_value|].
  split.
  { intros k Hk. destruct (cleanPayload_keys h tsp k Hk) as [a ->].
    exists a. split; [done|]. by rewrite <- cleanPayload_wire_value. }
  split; [apply wire_key_inj|].
  split.
  { intros Hz. pose proof (cleanPayload_wire_value h tsp ADownloadLimit) as Hv.
    cbn [wire_key wire_value] in Hv. by rewrite Hz in Hv. }
  split.
  { intros Hz. pose proof (cleanPayload_wire_value h tsp ADownloadLimited) as Hv.
    cbn [wire_key wire_value] in Hv. by rewrite Hz in Hv. }
  intros ids ->.
  assert (Hm : nested_loop (overloaded h (only_IDs ids))
                 (fields_TorrentSetPayload h (only_IDs ids))
               = {[ "ids" := VInt64s ids ]}) by (vm_compute; reflexivity).
  rewrite Hm. split; [done|]. apply map_size_singleton.
Qed.

(** C1, on the sample payload: six attributes are set, among them a limit
    of 0 and a switch set to false. *)
Lemma MarshalJSON_exactly_the_set_attributes_sample :
  ∃ m : WireMap,
    cleanPayload sample_heap sample_payload = Some m
    ∧ m !! "downloadLimit" = Some (VInt64 0)
    ∧ m !! "downloadLimited" = Some (VBool false)
    ∧ m !! "uploadLimit" = None
    ∧ size m = 6.
Proof.
  destruct (MarshalJSON_exactly_the_set_attributes sample_heap sample_payload)
    as (m & Hm & _ & Hv & _ & _ & Hz & Hf & _).
  exists m. split; [exact Hm|].
  split; [apply Hz; reflexivity|].
  split; [apply Hf; reflexivity|].
  split; [exact (Hv AUploadLimit)|].
  rewrite cleanPayload_eq in Hm. injection Hm as <-. vm_compute. reflexivity.
Defined.

(** C6. When [SeedIdleLimit] points to a duration [d] (in nanoseconds), the
    map holds under [seedIdleLimit] the integer number [q] of whole minutes
    in [d]: [q] minutes do not exceed [d] in size and less than one minute is
    left over, the remainder being dropped.  A duration of 90 seconds gives
    1. *)
Theorem SeedIdleLimit_in_whole_minutes (h : Heap) (tsp : TorrentSetPayload) (d : Z) :
  SeedIdleLimit tsp = Some d →
  ∃ (m : WireMap) (q : Z),
    cleanPayload h tsp = Some m
    ∧ m !! "seedIdleLimit" = Some (VInt64 q)
    ∧ time_Minute = 60000000000%Z
    ∧ (0 ≤ d → 60000000000 * q ≤ d < 60000000000 * q + 60000000000)%Z
    ∧ (d ≤ 0 → 60000000000 * q - 60000000000 < d ≤ 60000000000 * q)%Z
    ∧ (d = (90 * 1000000000)%Z → q = 1%Z).
Proof.
  intros Hd. exists (nested_loop (overloaded h tsp) (fields_TorrentSetPayload h tsp)),
    (d `quot` 60000000000)%Z.
  split; [apply cleanPayload_eq|].
  split.
  { pose proof (cleanPayload_wire_value h tsp ASeedIdleLimit) as Hv.
    cbn [wire_key wire_value] in Hv. by rewrite Hd in Hv. }
  split; [reflexivity|].
  pose proof (Z.quot_rem' d 60000000000) as Hqr.
  split; [|split].
  - intros Hpos. pose proof (Z.rem_bound_pos d 60000000000 Hpos). lia.
  - intros Hneg.
    pose proof (Z.rem_bound_pos_neg d 60000000000 eq_refl Hneg). lia.
  - intros ->. reflexivity.
Qed.

(** C6, on the sample payload, whose idle limit is 90 seconds. *)
Lemma SeedIdleLimit_in_whole_minutes_sample :
  ∃ m : WireMap,
    cleanPayload sample_heap sample_payload = Some m
    ∧ m !! "seedIdleLimit" = Some (VInt64 1).
Proof.
  destruct (SeedIdleLimit_in_whole_minutes sample_heap sample_payload
              (90 * time_Second)%Z eq_refl)
    as (m & q & Hm & Hq & _ & _ & _ & H90).
  exists m. split; [exact Hm|]. rewrite Hq, (H90 eq_refl). reflexivity.
Defined.

(** C7, as stated, fails on the tracker list: present but empty, it is
    emitted, but as the empty string and not as an empty list. *)
Lemma empty_TrackerList_is_not_an_empty_list :
  ATrackerList ∈ list_attrs
  ∧ present_empty sample_no_trackers ATrackerList
  ∧ ∃ m : WireMap,
      cleanPayload sample_heap sample_no_trackers = Some m
      ∧ m !! wire_key ATrackerList = Some (VString "")
      ∧ ¬ ∃ v, m !! wire_key ATrackerList = Some v ∧ empty_list_value v.
Proof.
  split; [by apply (bool_decide_unpack _)|].
  split; [reflexivity|].
  eexists. split; [apply cleanPayload_eq|].
  assert (Hm : nested_loop (overloaded sample_heap sample_no_trackers)
                 (fields_TorrentSetPayload sample_heap sample_no_trackers)
               !! wire_key ATrackerList = Some (VString ""))
    by (vm_compute; reflexivity).
  split; [exact Hm|].
  intros (v & Hv & [->| ->]); rewrite Hm in Hv; discriminate Hv.
Qed.

(** C7, amended.  A slice attribute that is nil is left out of the map.  One
    that is present but empty is in the map under its wire key: with an
    empty list as value for every slice attribute but the tracker list, and
    with the empty string for the tracker list. *)
Theorem present_empty_list_is_emitted (h : Heap) (tsp : TorrentSetPayload) :
  ∃ m : WireMap,
    cleanPayload h tsp = Some m
    ∧ ∀ a, a ∈ list_attrs →
        (absent tsp a → m !! wire_key a = None)
        ∧ (present_empty tsp a → a ≠ ATrackerList →
             ∃ v, m !! wire_key a = Some v ∧ empty_list_value v)
        ∧ (present_empty tsp a → a = ATrackerList →
             m !! wire_key a = Some (VString "")).
Proof.
  eexists. split; [apply cleanPayload_eq|].
  intros a Ha. rewrite cleanPayload_wire_value.
  unfold absent, present_empty, empty_list_value.
  destruct a;
    try (exfalso; revert Ha; apply (bool_decide_unpack _); by vm_compute);
    cbn [list_attr_len wire_value].
  all: split; [intros Hnil; by apply fmap_None in Hnil as ->|].
  all: split; [intros Hpe Hne|intros Hpe Heq; try discriminate Heq].
  all: apply fmap_Some in Hpe as (l & -> & Hl); simpl.
  1-3,5-7: symmetry in Hl; apply nil_length_inv in Hl as ->; eauto.
  - rewrite (slice_elems_empty h l) by done. eauto.
  - done.
  - by rewrite (slice_elems_empty h l).
Qed.

(** C10. A tracker list that is present (non-nil) and of length zero is not
    left out: the map holds the empty string under [trackerList], the join
    of no entries. *)
Theorem empty_TrackerList_is_the_empty_string (h : Heap) (tsp : TorrentSetPayload)
    (s : slice) :
  TrackerList tsp = Some s → len s = 0 →
  ∃ m : WireMap,
    cleanPayload h tsp = Some m
    ∧ m !! "trackerList" = Some (VString "")
    ∧ strings_Join (slice_elems h s) newline = "".
Proof.
  intros Ht Hl. eexists. split; [apply cleanPayload_eq|].
  pose proof (cleanPayload_wire_value h tsp ATrackerList) as Hv.
  cbn [wire_key wire_value] in Hv. rewrite Ht in Hv. simpl in Hv.
  rewrite (slice_elems_empty h s Hl) in *. done.
Qed.

(** C10, on a payload whose tracker list is present and empty. *)
Lemma empty_TrackerList_is_the_empty_string_sample :
  ∃ m : WireMap,
    cleanPayload sample_heap sample_no_trackers = Some m
    ∧ m !! "trackerList" = Some (VString "").
Proof.
  destruct (empty_TrackerList_is_the_empty_string sample_heap sample_no_trackers
              {| arr := 0; off := 0; len := 0 |} eq_refl eq_refl)
    as (m & Hm & Hv & _).
  exists m. split; [exact Hm|exact Hv].
Defined.

(** ** Fields that share no memory with the tracker list *)

Lemma wire_value_set_TrackerList (h : Heap) (p : TorrentSetPayload)
    (tl : option slice) (a : Attr) :
  a ≠ ATrackerList → wire_value h (set_TrackerList tl p) a = wire_value h p a.
Proof. by destruct a. Qed.

(** When the writes stay within a slice [s] that [Labels], [Group] and
    [Location] do not touch, every attribute but the tracker list reads as
    before, and so does every field but [TrackerList]. *)
Lemma apart_reads_same (h h' : Heap) (p : TorrentSetPayload) (s : slice) :
  TrackerList p = Some s →
  TrackerList_apart p →
  (∀ l, slice_disjoint l s → slice_elems h' l = slice_elems h l) →
  (∀ a, a ≠ ATrackerList → wire_value h' p a = wire_value h p a)
  ∧ other_fields h' p = other_fields h p.
Proof.
  intros Ht Hap Hf. destruct (Hap s Ht) as (HL & HG & HLoc).
  assert (Hlab : ∀ (f : list string → Value),
            (λ l, f (slice_elems h' l)) <$> Labels p
            = (λ l, f (slice_elems h l)) <$> Labels p).
  { intros f. destruct (Labels p) as [l|]; [|done]. simpl.
    by rewrite (Hf l) by (by apply HL). }
  assert (Hptr : ∀ o : option pointer,
            (∀ q, o = Some q → slice_disjoint (pointee q) s) →
            (λ q, VString (deref h' q)) <$> o = (λ q, VString (deref h q)) <$> o).
  { intros [q|] Hq; [|done]. simpl. unfold deref.
    by rewrite (Hf (pointee q)) by (by apply Hq). }
  split.
  - intros a Ha. destruct a; try reflexivity; cbn [wire_value].
    + by apply Hptr.
    + apply (Hlab VStrings).
    + by apply Hptr.
    + done.
  - unfold other_fields, fields_TorrentSetPayload.
    cbn [set_TrackerList BandwidthPriority DownloadLimit DownloadLimited
         FilesWanted FilesUnwanted Group HonorsSessionLimits IDs Labels Location
         PeerLimit PriorityHigh PriorityLow PriorityNormal QueuePosition
         SeedIdleLimit SeedIdleMode SeedRatioLimit SeedRatioMode TrackerList
         UploadLimit UploadLimited].
    rewrite (Hptr (Group p) HG), (Hptr (Location p) HLoc), (Hlab VStrings).
    done.
Qed.

(** ** [TorrentSet] *)

Section client_facts.
Context {Ctx Client : Type}.
Variable rpcCall :
  Client → Ctx → string → Heap → TorrentSetPayload → Client * option error.
Implicit Types (ctx : Ctx) (p : TorrentSetPayload) (w : @World Ctx Client).

(** With an empty identifier list [TorrentSet] returns before anything
    else happens. *)
Lemma TorrentSet_invalid ctx p w :
  len_ints (IDs p) = 0 →
  TorrentSet rpcCall ctx p w
  = Some (Some (errors_New "there must be at least one ID"), w).
Proof. intros Hl. unfold TorrentSet. by rewrite decide_True. Qed.

(** Otherwise it normalizes, calls the transport once, and wraps the error
    the transport returns, if any. *)
Lemma TorrentSet_valid ctx p w h' p' :
  len_ints (IDs p) ≠ 0 →
  normalized p (heap w) = Some (h', p') →
  TorrentSet rpcCall ctx p w
  = Some (match (rpcCall (client w) ctx "torrent-set" h' p').2 with
          | Some err =>
              Some (fmt_Errorf_w "'torrent-set' rpc method failed: " err)
          | None => None
          end,
          {| heap := h';
             client := (rpcCall (client w) ctx "torrent-set" h' p').1;
             trace := trace w ++ [ {| inv_ctx := ctx; inv_method := "torrent-set";
                                      inv_heap := h'; inv_arguments := p' |} ] |}).
Proof.
  intros Hl Hn. unfold TorrentSet, normalized in *. rewrite decide_False by done.
  destruct (compact_slice _ _) as [[h2 tl]|]; simpl in *; [|done].
  injection Hn as <- <-. unfold call_rpcCall. simpl.
  by destruct (rpcCall _ _ _ _ _) as [c [e|]].
Qed.

(** C2. With an empty identifier list (nil or of length zero) [TorrentSet]
    returns the validation error and leaves the world as it was: no call
    reaches the transport.  With a non-empty one the result is not the
    validation error, and exactly one call is added to the trace, with the
    method name [torrent-set] and the caller's context. *)
Theorem TorrentSet_validates_then_calls_once ctx p w :
  (len_ints (IDs p) = 0 →
     TorrentSet rpcCall ctx p w
     = Some (Some (errors_New "there must be at least one ID"), w))
  ∧ (len_ints (IDs p) ≠ 0 →
     ∃ out w' inv,
       TorrentSet rpcCall ctx p w = Some (out, w')
       ∧ out ≠ Some (errors_New "there must be at least one ID")
       ∧ trace w' = trace w ++ [inv]
       ∧ inv_method inv = "torrent-set"
       ∧ inv_ctx inv = ctx).
Proof.
  split; [apply TorrentSet_invalid|].
  intros Hl. destruct (normalized_total p (heap w)) as (h' & tl & Hn).
  do 3 eexists. split; [by apply TorrentSet_valid|].
  split; [|done].
  by destruct (rpcCall _ _ _ _ _).2.
Qed.

(** C8. For a payload that passes validation: if the transport returns an
    error [e], [TorrentSet] returns an error that wraps [e] itself and whose
    message is [e]'s message behind a prefix naming the method
    [torrent-set]; if the transport returns no error, neither does
    [TorrentSet]. *)
Theorem TorrentSet_wraps_transport_error ctx p w :
  len_ints (IDs p) ≠ 0 →
  ∃ h' p' out w',
    normalized p (heap w) = Some (h', p')
    ∧ TorrentSet rpcCall ctx p w = Some (out, w')
    ∧ (∀ e, (rpcCall (client w) ctx "torrent-set" h' p').2 = Some e →
         ∃ e', out = Some e'
               ∧ Unwrap e' = Some e
               ∧ Error e' = ("'torrent-set' rpc method failed: " ++ Error e)%string)
    ∧ ((rpcCall (client w) ctx "torrent-set" h' p').2 = None → out = None).
Proof.
  intros Hl. destruct (normalized_total p (heap w)) as (h' & tl & Hn).
  do 4 eexists. split; [exact Hn|].
  split; [by apply TorrentSet_valid|].
  split.
  - intros e ->. eexists. split; [done|]. by split.
  - by intros ->.
Qed.

(** C9, amended.  After a call with a non-empty identifier list, the slice
    the caller still holds in [TrackerList] (same array, offset and length)
    reads the sorted entries with the duplicates collapsed, followed by the
    sorted entries that were at those last positions: its length is
    unchanged and its content is in general not what the caller supplied.
    Nothing else in memory is written: other arrays, the elements of the
    same array outside the slice, and so every slice sharing no element with
    it, are as before.  When [Labels], [Group] and [Location] share no
    memory with the tracker list, every other field of the payload reads for
    the caller as it did before the call. *)
Theorem TorrentSet_sorts_the_callers_TrackerList ctx p w (s : slice) :
  len_ints (IDs p) ≠ 0 →
  TrackerList p = Some s →
  slice_wf (heap w) s →
  ∃ out w',
    TorrentSet rpcCall ctx p w = Some (out, w')
    ∧ (let sorted := sort_Strings_list (slice_elems (heap w) s) in
       slice_elems (heap w') s
         = uniq sorted ++ drop (length (uniq sorted)) sorted
       ∧ StronglySorted string_le sorted
       ∧ sorted ≡ₚ slice_elems (heap w) s
       ∧ NoDup (uniq sorted))
    ∧ length (slice_elems (heap w') s) = len s
    ∧ (∀ i : nat, i ≠ arr s → heap w' !! i = heap w !! i)
    ∧ (∀ a, heap w !! arr s = Some a →
         ∃ a', heap w' !! arr s = Some a'
               ∧ length a' = length a
               ∧ ∀ i : nat, i < off s ∨ off s + len s ≤ i → a' !! i = a !! i)
    ∧ (∀ s', slice_disjoint s' s →
         slice_elems (heap w') s' = slice_elems (heap w) s')
    ∧ (TrackerList_apart p →
         other_fields (heap w') p = other_fields (heap w) p
         ∧ ∀ a, a ≠ ATrackerList →
             wire_value (heap w') p a = wire_value (heap w) p a).
Proof.
  intros Hl Ht Hwf.
  pose proof (normalized_Some p (heap w) s Ht Hwf) as Hn. cbv zeta in Hn.
  set (sorted := sort_Strings_list (slice_elems (heap w) s)) in *.
  assert (Hlen : length (uniq sorted ++ drop (length (uniq sorted)) sorted) = len s).
  { rewrite length_uniq_drop. unfold sorted.
    rewrite sort_Strings_list_perm. by apply length_slice_elems. }
  do 2 eexists. split; [by apply (TorrentSet_valid _ _ _ _ _ Hl Hn)|]. simpl.
  split; [|split; [|split; [|split; [|split]]]].
  - split; [by apply slice_elems_store|].
    split; [apply sort_Strings_list_sorted|].
    split; [apply sort_Strings_list_perm|].
    apply (uniq_sorted string_le), sort_Strings_list_sorted.
  - by rewrite slice_elems_store.
  - intros i Hi. by apply slice_store_lookup_ne.
  - intros a Ha. destruct Hwf as (a0 & Ha0 & Hle).
    assert (a0 = a) as -> by congruence.
    by apply slice_store_outside.
  - intros s' Hd. by apply slice_elems_store_disjoint.
  - intros Hap.
    destruct (apart_reads_same (heap w) _ p s Ht Hap
                (λ l Hd, slice_elems_store_disjoint (heap w) s _ l Hwf Hlen Hd))
      as [Hattr Hother].
    split; [exact Hother|exact Hattr].
Qed.

End client_facts.

(** ** Normalization makes the encoding canonical *)

(** What the transport is handed for a payload with a tracker list. *)
Lemma normalized_TrackerList (p : TorrentSetPayload) (h : Heap) (s : slice) :
  TrackerList p = Some s → slice_wf h s →
  ∃ h' t,
    normalized p h = Some (h', set_TrackerList (Some t) p)
    ∧ slice_elems h' t = uniq (sort_Strings_list (slice_elems h s))
    ∧ ∀ l, slice_disjoint l s → slice_elems h' l = slice_elems h l.
Proof.
  intros Ht Hwf.
  pose proof (normalized_Some p h s Ht Hwf) as Hn. cbv zeta in Hn.
  set (sorted := sort_Strings_list (slice_elems h s)) in *.
  assert (Hlen : length (uniq sorted ++ drop (length (uniq sorted)) sorted) = len s).
  { rewrite length_uniq_drop. unfold sorted.
    rewrite sort_Strings_list_perm. by apply length_slice_elems. }
  do 2 eexists. split; [exact Hn|]. split.
  - rewrite slice_elems_store_prefix; [by rewrite take_app_length|done|done|].
    rewrite <- Hlen, length_app. lia.
  - intros l Hd. by apply slice_elems_store_disjoint.
Qed.

Section canonical.
Context {Ctx Client : Type}.
Variable rpcCall :
  Client → Ctx → string → Heap → TorrentSetPayload → Client * option error.
Variable json_Marshal : WireMap → list Byte.byte * option error.

(** C5, amended.  Take two payloads that differ only in their tracker lists,
    both present and holding the same entries, in any order and any number
    of times, and let [Labels], [Group] and [Location] share no memory with
    either list.  [TorrentSet] hands the transport for each a payload whose
    tracker list is sorted ascending without repetition and holds those same
    entries, and the two payloads handed over encode to the same bytes.
    When the list supplied is ["http://b", "http://a", "http://a"], the list
    handed over is ["http://a", "http://b"] and the map holds, under
    [trackerList], the two entries joined by a line break. *)
Theorem TorrentSet_tracker_list_canonical (ctx : Ctx) (w : @World Ctx Client)
    (p1 p2 : TorrentSetPayload) (s1 s2 : slice) :
  len_ints (IDs p1) ≠ 0 →
  TrackerList p1 = Some s1 →
  p2 = set_TrackerList (Some s2) p1 →
  slice_wf (heap w) s1 →
  slice_wf (heap w) s2 →
  (∀ x, x ∈ slice_elems (heap w) s1 ↔ x ∈ slice_elems (heap w) s2) →
  TrackerList_apart p1 → TrackerList_apart p2 →
  ∃ out1 w1 i1 out2 w2 i2 t1 m,
    TorrentSet rpcCall ctx p1 w = Some (out1, w1)
    ∧ trace w1 = trace w ++ [i1]
    ∧ TorrentSet rpcCall ctx p2 w = Some (out2, w2)
    ∧ trace w2 = trace w ++ [i2]
    ∧ MarshalJSON json_Marshal (inv_heap i1) (inv_arguments i1)
      = MarshalJSON json_Marshal (inv_heap i2) (inv_arguments i2)
    ∧ TrackerList (inv_arguments i1) = Some t1
    ∧ StronglySorted string_le (slice_elems (inv_heap i1) t1)
    ∧ NoDup (slice_elems (inv_heap i1) t1)
    ∧ (∀ x, x ∈ slice_elems (inv_heap i1) t1 ↔ x ∈ slice_elems (heap w) s1)
    ∧ cleanPayload (inv_heap i1) (inv_arguments i1) = Some m
    ∧ (slice_elems (heap w) s1 = ["http://b"; "http://a"; "http://a"] →
         slice_elems (inv_heap i1) t1 = ["http://a"; "http://b"]
         ∧ m !! "trackerList"
           = Some (VString ("http://a" ++ newline ++ "http://b"))).
Proof.
  intros Hl Ht1 -> Hwf1 Hwf2 Hsame Hap1 Hap2.
  destruct (normalized_TrackerList p1 (heap w) s1 Ht1 Hwf1)
    as (h1 & t1 & Hn1 & He1 & Hf1).
  destruct (normalized_TrackerList (set_TrackerList (Some s2) p1) (heap w) s2
              eq_refl Hwf2) as (h2 & t2 & Hn2 & He2 & Hf2).
  pose proof (TorrentSet_valid rpcCall ctx _ w _ _ Hl Hn1) as Hr1.
  pose proof (TorrentSet_valid rpcCall ctx (set_TrackerList (Some s2) p1) w _ _
                Hl Hn2) as Hr2.
  destruct (uniq_sorted string_le _
              (sort_Strings_list_sorted (slice_elems (heap w) s1)))
    as [Hs Hnd].
  destruct (apart_reads_same (heap w) h1 p1 s1 Ht1 Hap1 Hf1) as [Hattr1 _].
  destruct (apart_reads_same (heap w) h2 (set_TrackerList (Some s2) p1) s2
              eq_refl Hap2 Hf2) as [Hattr2 _].
  assert (Hext : cleanPayload h1 (set_TrackerList (Some t1) p1)
                 = cleanPayload h2 (set_TrackerList (Some t2)
                                      (set_TrackerList (Some s2) p1))).
  { apply cleanPayload_ext. intros a.
    destruct (decide (a = ATrackerList)) as [->|Ha].
    - cbn [wire_value set_TrackerList TrackerList]. simpl.
      rewrite He1, He2. by rewrite (uniq_sort_canonical _ _ Hsame).
    - rewrite !wire_value_set_TrackerList by done.
      rewrite (Hattr1 a Ha).
      rewrite <- (wire_value_set_TrackerList h2 p1 (Some s2) a Ha).
      rewrite (Hattr2 a Ha). by rewrite wire_value_set_TrackerList. }
  do 8 eexists.
  split; [exact Hr1|]. split; [done|].
  split; [exact Hr2|]. split; [done|]. simpl.
  split; [unfold MarshalJSON; by rewrite Hext|].
  split; [done|].
  split; [by rewrite He1|].
  split; [by rewrite He1|].
  split; [intros x; by rewrite He1, elem_of_uniq, sort_Strings_list_perm|].
  split; [apply cleanPayload_eq|].
  intros Hex.
  assert (Hu : slice_elems h1 t1 = ["http://a"; "http://b"]).
  { rewrite He1, Hex. by vm_compute. }
  split; [exact Hu|].
  pose proof (cleanPayload_wire_value h1 (set_TrackerList (Some t1) p1) ATrackerList)
    as Hv. cbn [wire_key wire_value set_TrackerList TrackerList] in Hv.
  rewrite Hv. simpl. by rewrite Hu.
Qed.

End canonical.

(** ** The theorems on the sample data *)

Lemma sample_IDs_not_empty : len_ints (IDs sample_payload) ≠ 0.
Proof. discriminate. Defined.

Lemma sample_TrackerList_wf :
  slice_wf (heap sample_world) {| arr := 0; off := 0; len := 3 |}.
Proof.
  exists ["http://b"; "http://a"; "http://a"].
  split; [reflexivity|]. simpl. lia.
Defined.

Lemma sample_TrackerList_apart : TrackerList_apart sample_payload.
Proof. intros t _. repeat split; intros x Hx; discriminate Hx. Defined.

Lemma sample_second_TrackerList_apart :
  TrackerList_apart
    (set_TrackerList (Some {| arr := 1; off := 0; len := 2 |}) sample_payload).
Proof. intros t _. repeat split; intros x Hx; discriminate Hx. Defined.

(** C2, on an empty identifier list and on the sample payload. *)
Lemma TorrentSet_validates_then_calls_once_sample :
  TorrentSet refusing_rpcCall tt (only_IDs []) sample_world
  = Some (Some (errors_New "there must be at least one ID"), sample_world)
  ∧ ∃ out w' inv,
      TorrentSet refusing_rpcCall tt sample_payload sample_world = Some (out, w')
      ∧ trace w' = [inv]
      ∧ inv_method inv = "torrent-set".
Proof.
  split.
  - apply (TorrentSet_validates_then_calls_once refusing_rpcCall tt
             (only_IDs []) sample_world).
    reflexivity.
  - destruct (proj2 (TorrentSet_validates_then_calls_once refusing_rpcCall tt
                       sample_payload sample_world) sample_IDs_not_empty)
      as (out & w' & inv & Hr & _ & Ht & Hm & _).
    exists out, w', inv. split; [exact Hr|]. split; [exact Ht|exact Hm].
Defined.

(** C8, with a transport that refuses the connection. *)
Lemma TorrentSet_wraps_transport_error_sample :
  ∃ e' w',
    TorrentSet refusing_rpcCall tt sample_payload sample_world = Some (Some e', w')
    ∧ Unwrap e' = Some (errorString "connection refused")
    ∧ Error e' = "'torrent-set' rpc method failed: connection refused".
Proof.
  destruct (TorrentSet_wraps_transport_error refusing_rpcCall tt sample_payload
              sample_world sample_IDs_not_empty)
    as (h' & p' & out & w' & _ & Hr & He & _).
  destruct (He (errorString "connection refused") eq_refl) as (e' & -> & Hu & Hm).
  exists e', w'. split; [exact Hr|]. split; [exact Hu|exact Hm].
Defined.

(** C9, amended, on the sample payload: the caller supplied
    ["http://b", "http://a", "http://a"] and finds
    ["http://a", "http://b", "http://b"]; the other fields read as before. *)
Lemma TorrentSet_sorts_the_callers_TrackerList_sample :
  ∃ out w',
    TorrentSet accepting_rpcCall tt sample_payload sample_world = Some (out, w')
    ∧ slice_elems (heap w') {| arr := 0; off := 0; len := 3 |}
      = ["http://a"; "http://b"; "http://b"]
    ∧ heap w' !! 1 = Some ["http://a"; "http://b"]
    ∧ other_fields (heap w') sample_payload
      = other_fields sample_heap sample_payload.
Proof.
  destruct (TorrentSet_sorts_the_callers_TrackerList accepting_rpcCall tt
              sample_payload sample_world {| arr := 0; off := 0; len := 3 |}
              sample_IDs_not_empty eq_refl sample_TrackerList_wf)
    as (out & w' & Hr & [He _] & _ & Hf & _ & _ & Hother).
  exists out, w'. split; [exact Hr|]. split; [|split].
  - rewrite He. vm_compute. reflexivity.
  - rewrite (Hf 1) by discriminate. reflexivity.
  - exact (proj1 (Hother sample_TrackerList_apart)).
Defined.

Lemma shared_IDs_not_empty : len_ints (IDs shared_payload) ≠ 0.
Proof. discriminate. Qed.

(** C9, as stated, fails when another field shares the tracker list's
    memory.  The caller gave one list both as [Labels] and as [TrackerList]:
    before the call [Labels] reads ["http://b", "http://a", "http://a"],
    after it ["http://a", "http://b", "http://b"]. *)
Lemma Labels_sharing_the_array_are_rearranged :
  len_ints (IDs shared_payload) ≠ 0
  ∧ wire_value (heap sample_world) shared_payload ALabels
    = Some (VStrings ["http://b"; "http://a"; "http://a"])
  ∧ ∃ out w',
      TorrentSet accepting_rpcCall tt shared_payload sample_world = Some (out, w')
      ∧ wire_value (heap w') shared_payload ALabels
        = Some (VStrings ["http://a"; "http://b"; "http://b"])
      ∧ other_fields (heap w') shared_payload
        ≠ other_fields (heap sample_world) shared_payload.
Proof.
  split; [discriminate|]. split; [reflexivity|].
  destruct (normalized_total shared_payload (heap sample_world)) as (h' & tl & Hn).
  pose proof (TorrentSet_valid accepting_rpcCall tt shared_payload sample_world
                h' _ shared_IDs_not_empty Hn) as Hr.
  do 2 eexists. split; [exact Hr|].
  vm_compute in Hn. injection Hn as <- _.
  split; [vm_compute; reflexivity|].
  vm_compute. intros Heq. discriminate Heq.
Qed.

(** The same happens to a [*string] field that points at an entry of the
    tracker list: [Group] reads "http://b" before the call and "http://a"
    after it. *)
Lemma Group_pointing_into_the_array_reads_another_entry :
  wire_value (heap sample_world) pointing_payload AGroup
  = Some (VString "http://b")
  ∧ ∃ out w',
      TorrentSet accepting_rpcCall tt pointing_payload sample_world = Some (out, w')
      ∧ wire_value (heap w') pointing_payload AGroup = Some (VString "http://a").
Proof.
  split; [reflexivity|].
  destruct (normalized_total pointing_payload (heap sample_world))
    as (h' & tl & Hn).
  assert (Hl : len_ints (IDs pointing_payload) ≠ 0) by discriminate.
  pose proof (TorrentSet_valid accepting_rpcCall tt pointing_payload sample_world
                h' _ Hl Hn) as Hr.
  do 2 eexists. split; [exact Hr|].
  vm_compute in Hn. injection Hn as <- _.
  vm_compute. reflexivity.
Qed.

(** C5, as stated, fails for the same reason.  Two payloads differ only in
    their tracker lists, which hold the same two entries; the first shares
    its tracker array with [Labels].  Sorting rearranges the labels of the
    first submission and not those of the second, and the two payloads
    handed to the transport differ under [labels]; an encoder that maps
    different maps to different bytes then gives different bytes. *)
Lemma Labels_sharing_the_array_break_canonicity :
  shared_payload_resorted
  = set_TrackerList (TrackerList shared_payload_resorted) shared_payload
  ∧ (∀ x, x ∈ slice_elems (heap sample_world) {| arr := 0; off := 0; len := 3 |}
          ↔ x ∈ slice_elems (heap sample_world) {| arr := 1; off := 0; len := 2 |})
  ∧ cleanPayload (heap sample_world) shared_payload ≫= (.!! "labels")
    = cleanPayload (heap sample_world) shared_payload_resorted ≫= (.!! "labels")
  ∧ ∃ out1 w1 i1 out2 w2 i2,
      TorrentSet accepting_rpcCall tt shared_payload sample_world = Some (out1, w1)
      ∧ trace w1 = [i1]
      ∧ TorrentSet accepting_rpcCall tt shared_payload_resorted sample_world
        = Some (out2, w2)
      ∧ trace w2 = [i2]
      ∧ cleanPayload (inv_heap i1) (inv_arguments i1) ≫= (.!! "labels")
        = Some (VStrings ["http://a"; "http://b"; "http://b"])
      ∧ cleanPayload (inv_heap i2) (inv_arguments i2) ≫= (.!! "labels")
        = Some (VStrings ["http://b"; "http://a"; "http://a"])
      ∧ cleanPayload (inv_heap i1) (inv_arguments i1)
        ≠ cleanPayload (inv_heap i2) (inv_arguments i2)
      ∧ ∀ json_Marshal : WireMap → list Byte.byte * option error,
          (∀ m m', json_Marshal m = json_Marshal m' → m = m') →
          MarshalJSON json_Marshal (inv_heap i1) (inv_arguments i1)
          ≠ MarshalJSON json_Marshal (inv_heap i2) (inv_arguments i2).
Proof.
  unfold shared_payload_resorted. split; [reflexivity|].
  split.
  { intros x.
    change (x ∈ ["http://b"; "http://a"; "http://a"] ↔ x ∈ ["http://a"; "http://b"]).
    rewrite !elem_of_cons, !elem_of_nil. tauto. }
  split; [vm_compute; reflexivity|].
  destruct (normalized_total shared_payload (heap sample_world))
    as (h1 & tl1 & Hn1).
  destruct (normalized_total
              (set_TrackerList (Some {| arr := 1; off := 0; len := 2 |}) shared_payload)
              (heap sample_world)) as (h2 & tl2 & Hn2).
  pose proof (TorrentSet_valid accepting_rpcCall tt _ sample_world
                _ _ shared_IDs_not_empty Hn1) as Hr1.
  pose proof (TorrentSet_valid accepting_rpcCall tt
                (set_TrackerList (Some {| arr := 1; off := 0; len := 2 |}) shared_payload)
                sample_world _ _ shared_IDs_not_empty Hn2) as Hr2.
  do 6 eexists. split; [exact Hr1|]. split; [reflexivity|].
  split; [exact Hr2|]. split; [reflexivity|].
  cbn [inv_heap inv_arguments].
  vm_compute in Hn1. injection Hn1 as <- <-.
  vm_compute in Hn2. injection Hn2 as <- <-.
  match goal with
  | |- ?c1 ≫= _ = _ ∧ ?c2 ≫= _ = _ ∧ _ => set (r1 := c1); set (r2 := c2)
  end.
  assert (H1 : r1 ≫= (.!! "labels")
               = Some (VStrings ["http://a"; "http://b"; "http://b"]))
    by (vm_compute; reflexivity).
  assert (H2 : r2 ≫= (.!! "labels")
               = Some (VStrings ["http://b"; "http://a"; "http://a"]))
    by (vm_compute; reflexivity).
  assert (Hne : r1 ≠ r2).
  { intros Heq. rewrite Heq, H2 in H1. discriminate H1. }
  split; [exact H1|]. split; [exact H2|]. split; [exact Hne|].
  intros json_Marshal Hinj. unfold MarshalJSON. fold r1 r2.
  destruct r1 as [m1|], r2 as [m2|]; try discriminate; simpl.
  intros [= Hj]. apply Hne. f_equal. by apply Hinj.
Qed.

(** C5, on the sample payload and on the same payload with the tracker list
    ["http://a", "http://b"]. *)
Lemma TorrentSet_tracker_list_canonical_sample :
  ∃ out1 w1 i1 out2 w2 i2 m,
    TorrentSet accepting_rpcCall tt sample_payload sample_world = Some (out1, w1)
    ∧ trace w1 = [i1]
    ∧ TorrentSet accepting_rpcCall tt
        (set_TrackerList (Some {| arr := 1; off := 0; len := 2 |}) sample_payload)
        sample_world = Some (out2, w2)
    ∧ trace w2 = [i2]
    ∧ MarshalJSON counting_json_Marshal (inv_heap i1) (inv_arguments i1)
      = MarshalJSON counting_json_Marshal (inv_heap i2) (inv_arguments i2)
    ∧ cleanPayload (inv_heap i1) (inv_arguments i1) = Some m
    ∧ m !! "trackerList" = Some (VString ("http://a" ++ newline ++ "http://b")).
Proof.
  assert (Hsame : ∀ x : string,
    x ∈ slice_elems (heap sample_world) {| arr := 0; off := 0; len := 3 |}
    ↔ x ∈ slice_elems (heap sample_world) {| arr := 1; off := 0; len := 2 |}).
  { intros x.
    change (x ∈ ["http://b"; "http://a"; "http://a"] ↔ x ∈ ["http://a"; "http://b"]).
    rewrite !elem_of_cons, !elem_of_nil. tauto. }
  assert (Hwf2 : slice_wf (heap sample_world) {| arr := 1; off := 0; len := 2 |}).
  { exists ["http://a"; "http://b"]. split; [reflexivity|]. simpl. lia. }
  destruct (TorrentSet_tracker_list_canonical accepting_rpcCall
              counting_json_Marshal tt sample_world sample_payload _
              {| arr := 0; off := 0; len := 3 |} {| arr := 1; off := 0; len := 2 |}
              sample_IDs_not_empty eq_refl eq_refl sample_TrackerList_wf Hwf2
              Hsame sample_TrackerList_apart sample_second_TrackerList_apart)
    as (out1 & w1 & i1 & out2 & w2 & i2 & t1 & m
        & Hr1 & Ht1 & Hr2 & Ht2 & Hj & _ & _ & _ & _ & Hm & Hex).
  exists out1, w1, i1, out2, w2, i2, m.
  split; [exact Hr1|]. split; [exact Ht1|].
  split; [exact Hr2|]. split; [exact Ht2|].
  split; [exact Hj|]. split; [exact Hm|].
  exact (proj2 (Hex eq_refl)).
Defined.

(** * Further properties of the code *)

(** ** [compact]: when it cuts, and what it always keeps *)

Section compact_more.
Context {E : Type} `{EqDecision E}.
Implicit Types (s l : list E) (prev x : E).

Lemma uniq_from_full prev l :
  length (uniq_from prev l) = length l → no_adjacent_eq (prev :: l).
Proof.
  revert prev; induction l as [|x l IH]; intros prev; simpl; [constructor|].
  case_decide as Hx.
  - intros Hlen. pose proof (length_uniq_from x l). lia.
  - simpl. intros Hlen. constructor; [congruence|]. apply IH. lia.
Qed.

Lemma uniq_full l : length (uniq l) = length l → no_adjacent_eq l.
Proof.
  destruct l as [|x l]; [constructor|]. simpl. intros Hlen.
  apply uniq_from_full. lia.
Qed.

Lemma last_uniq_from prev l : last (prev :: uniq_from prev l) = last (prev :: l).
Proof.
  revert prev; induction l as [|x l IH]; intros prev; [done|].
  cbn [uniq_from]. case_decide as Hx.
  - subst x. rewrite IH. by rewrite (last_cons_cons prev prev l).
  - rewrite (last_cons_cons prev x), (last_cons_cons prev x l). apply IH.
Qed.

(** X1. [compact] returns the slice at its full length exactly when the input
    has no two adjacent equal elements, and then it has written nothing; in
    every other case the slice it returns is strictly shorter.  A non-empty
    input never comes back empty. *)
Theorem compact_cuts_iff_adjacent_equal s :
  ∃ s' k, compact s = Some (s', k)
    ∧ (k = length s ↔ no_adjacent_eq s)
    ∧ (no_adjacent_eq s → s' = s)
    ∧ (¬ no_adjacent_eq s → k < length s)
    ∧ (s ≠ [] → 1 ≤ k).
Proof.
  exists (uniq s ++ drop (length (uniq s)) s), (length (uniq s)).
  pose proof (length_uniq s) as Hle.
  split; [apply compact_eq|].
  assert (Hiff : length (uniq s) = length s ↔ no_adjacent_eq s).
  { split; [apply uniq_full|]. intros Hn. by rewrite uniq_fixed. }
  split; [exact Hiff|].
  split.
  { intros Hn. rewrite (uniq_fixed _ Hn), drop_all. apply app_nil_r. }
  split.
  { intros Hn. destruct (decide (length (uniq s) = length s)) as [Heq|Hne]; [|lia].
    exfalso. by apply Hn, Hiff. }
  destruct s as [|x s]; [done|]. intros _. simpl. lia.
Qed.

(** X2. The slice [compact] returns begins with the first element of the input
    and ends with its last one. *)
Theorem compact_keeps_first_and_last s :
  ∃ c, compacted s = Some c ∧ head c = head s ∧ last c = last s.
Proof.
  exists (uniq s). split; [apply compacted_eq|].
  destruct s as [|x s]; [done|]. split; [done|]. apply last_uniq_from.
Qed.

End compact_more.

(** ** [MarshalJSON]: how many keys, and what never reaches the wire *)

Lemma NoDup_all_attrs : NoDup all_attrs.
Proof. apply (bool_decide_unpack _). by vm_compute. Qed.

Lemma all_attrs_complete (a : Attr) : a ∈ all_attrs.
Proof. destruct a; apply (bool_decide_unpack _); by vm_compute. Qed.

(** X3. The map has one key for each field that is set: its keys are the wire
    keys of the set attributes and their number is the number of non-nil
    fields of the payload. *)
Theorem MarshalJSON_one_key_per_set_field (h : Heap) (tsp : TorrentSetPayload) :
  ∃ m : WireMap,
    cleanPayload h tsp = Some m
    ∧ dom m = list_to_set (wire_key <$> set_attrs h tsp)
    ∧ size m = length (set_attrs h tsp)
    ∧ size m ≤ 22.
Proof.
  eexists. split; [apply cleanPayload_eq|].
  set (m := nested_loop _ _).
  assert (Hdom : dom m = list_to_set (wire_key <$> set_attrs h tsp)).
  { apply set_eq. intros k. rewrite elem_of_dom, elem_of_list_to_set, list_elem_of_fmap.
    unfold set_attrs. split.
    - intros Hk. destruct (cleanPayload_keys h tsp k Hk) as [a ->].
      exists a. split; [done|]. apply list_elem_of_filter.
      split; [|apply all_attrs_complete].
      unfold m in Hk. by rewrite cleanPayload_wire_value in Hk.
    - intros (a & -> & Ha). apply list_elem_of_filter in Ha as [Ha _].
      unfold m. by rewrite cleanPayload_wire_value. }
  assert (Hsize : size m = length (set_attrs h tsp)).
  { rewrite <- size_dom, Hdom, size_list_to_set, length_fmap; [done|].
    apply NoDup_fmap_2_strong; [|apply NoDup_filter, NoDup_all_attrs].
    intros a b _ _. apply wire_key_inj. }
  split; [done|]. split; [done|].
  rewrite Hsize. unfold set_attrs.
  etransitivity; [apply length_filter|]. done.
Qed.

(** X4. The map never has the key ["-"] nor an empty key, and no value in it is
    a raw [time.Duration] or the embedded struct; the only list of strings
    it can hold is under [labels], so the tracker list never travels as a
    list. *)
Theorem MarshalJSON_never_sends_raw_fields (h : Heap) (tsp : TorrentSetPayload) :
  ∃ m : WireMap,
    cleanPayload h tsp = Some m
    ∧ m !! "-" = None
    ∧ m !! "" = None
    ∧ ∀ k v, m !! k = Some v →
        (∀ d, v ≠ VDuration d)
        ∧ (∀ fields, v ≠ VStruct fields)
        ∧ (∀ l, v = VStrings l → k = "labels").
Proof.
  eexists. split; [apply cleanPayload_eq|].
  set (m := nested_loop _ _).
  assert (Hnone : ∀ k, (∀ a, k ≠ wire_key a) → m !! k = None).
  { intros k Hk. destruct (m !! k) as [v|] eqn:Hv; [|done].
    destruct (cleanPayload_keys h tsp k) as [a ->]; [by exists v|].
    by destruct (Hk a). }
  split; [apply Hnone; by intros []|].
  split; [apply Hnone; by intros []|].
  intros k v Hv.
  destruct (cleanPayload_keys h tsp k) as [a ->]; [by eexists|].
  unfold m in Hv. rewrite cleanPayload_wire_value in Hv.
  destruct a; cbn [wire_value wire_key] in *;
    apply fmap_Some in Hv as (x & _ & ->); by repeat split.
Qed.

(** X5. The idle limit on the wire: a duration of a whole number of minutes is
    sent as that number; the value sent is 0 exactly for the durations
    strictly between minus one minute and one minute, so a positive limit
    below a minute is sent as "0 minutes"; the value has the sign of the
    duration, and a longer duration never gives a smaller value. *)
Theorem SeedIdleLimit_truncation (h : Heap) (tsp : TorrentSetPayload) (d : Z) :
  SeedIdleLimit tsp = Some d →
  ∃ (m : WireMap) (q : Z),
    cleanPayload h tsp = Some m
    ∧ m !! "seedIdleLimit" = Some (VInt64 q)
    ∧ (∀ n, d = (n * time_Minute)%Z → q = n)
    ∧ (q = 0 ↔ - time_Minute < d < time_Minute)%Z
    ∧ (0 ≤ d → 0 ≤ q)%Z
    ∧ (d ≤ 0 → q ≤ 0)%Z
    ∧ (∀ d', d ≤ d' → q ≤ sil d')%Z.
Proof.
  intros Hd. exists (nested_loop (overloaded h tsp) (fields_TorrentSetPayload h tsp)),
    (sil d).
  split; [apply cleanPayload_eq|].
  split.
  { pose proof (cleanPayload_wire_value h tsp ASeedIdleLimit) as Hv.
    cbn [wire_key wire_value] in Hv. by rewrite Hd in Hv. }
  unfold sil. change time_Minute with 60000000000%Z.
  pose proof (Z.quot_rem' d 60000000000) as Hqr.
  split; [intros n ->; by apply Z.quot_mul|].
  split.
  { destruct (Z.le_ge_cases 0 d) as [Hpos|Hneg].
    - pose proof (Z.rem_bound_pos d 60000000000 Hpos). lia.
    - pose proof (Z.rem_bound_pos_neg d 60000000000 eq_refl Hneg). lia. }
  split.
  { intros Hpos. pose proof (Z.rem_bound_pos d 60000000000 Hpos). lia. }
  split.
  { intros Hneg. pose proof (Z.rem_bound_pos_neg d 60000000000 eq_refl Hneg). lia. }
  intros d' Hle. by apply Z.quot_le_mono.
Qed.

(** On the sample payload, whose idle limit of 90 seconds is sent as 1. *)
Lemma SeedIdleLimit_truncation_sample :
  ∃ (m : WireMap) (q : Z),
    cleanPayload sample_heap sample_payload = Some m
    ∧ m !! "seedIdleLimit" = Some (VInt64 q)
    ∧ (0 ≤ q)%Z
    ∧ (q ≤ sil (2 * time_Minute))%Z.
Proof.
  destruct (SeedIdleLimit_truncation sample_heap sample_payload
              (90 * time_Second)%Z eq_refl)
    as (m & q & Hm & Hq & _ & _ & Hpos & _ & Hmono).
  exists m, q. split; [exact Hm|]. split; [exact Hq|].
  split; [apply Hpos; by vm_compute|]. apply Hmono. by vm_compute.
Defined.

(** ** [TorrentSet]: what the caller and the transport are left with *)

Lemma string_le_empty (x : string) : string_le "" x.
Proof. by destruct x. Qed.

Lemma NoDup_no_adjacent_eq {E : Type} `{EqDecision E} (l : list E) :
  NoDup l → no_adjacent_eq l.
Proof.
  induction l as [|x [|y l] IH]; intros Hn; [constructor|constructor|].
  apply NoDup_cons in Hn as [Hx Hn]. constructor; [|by apply IH].
  intros ->. apply Hx. left.
Qed.

(** A list has no duplicate exactly when sorting and compacting it keeps
    its length. *)
Lemma uniq_sort_full_iff_NoDup (l : list string) :
  length (uniq (sort_Strings_list l)) = length l ↔ NoDup l.
Proof.
  rewrite <- (sort_Strings_list_perm l) at 2 3.
  split.
  - intros Hlen. apply uniq_full in Hlen.
    rewrite <- (uniq_fixed _ Hlen).
    apply (uniq_sorted string_le), sort_Strings_list_sorted.
  - intros Hn. by rewrite (uniq_fixed _ (NoDup_no_adjacent_eq _ Hn)).
Qed.

Lemma set_TrackerList_same (p : TorrentSetPayload) :
  set_TrackerList (TrackerList p) p = p.
Proof. by destruct p. Qed.

Section client_more.
Context {Ctx Client : Type}.
Variable rpcCall :
  Client → Ctx → string → Heap → TorrentSetPayload → Client * option error.
Implicit Types (ctx : Ctx) (p : TorrentSetPayload) (w : @World Ctx Client).

(** X6. With a nil tracker list and a non-empty identifier list, [TorrentSet]
    writes nothing to memory and hands the transport the caller's payload as
    it is; its encoding has no [trackerList] key. *)
Theorem TorrentSet_nil_TrackerList ctx p w :
  len_ints (IDs p) ≠ 0 →
  TrackerList p = None →
  ∃ out w' i (m : WireMap),
    TorrentSet rpcCall ctx p w = Some (out, w')
    ∧ heap w' = heap w
    ∧ trace w' = trace w ++ [i]
    ∧ inv_heap i = heap w
    ∧ inv_arguments i = p
    ∧ cleanPayload (inv_heap i) (inv_arguments i) = Some m
    ∧ m !! "trackerList" = None.
Proof.
  intros Hl Ht.
  assert (Hn : normalized p (heap w) = Some (heap w, p)).
  { unfold normalized. rewrite Ht. simpl. rewrite <- Ht.
    by rewrite set_TrackerList_same. }
  do 4 eexists. split; [by apply (TorrentSet_valid _ _ _ _ _ _ Hl Hn)|]. simpl.
  split; [done|]. split; [done|]. split; [done|]. split; [done|].
  split; [apply cleanPayload_eq|].
  pose proof (cleanPayload_wire_value (heap w) p ATrackerList) as Hv.
  cbn [wire_key wire_value] in Hv. by rewrite Ht in Hv.
Qed.

(** X7. With a tracker list, the transport is handed a slice on the same array
    at the same offset, no longer than the caller's: a prefix of what the
    caller's slice reads after the call.  No entry is lost and none is
    invented: the caller's slice after the call and the slice handed over
    hold the very strings the caller supplied, though not as often.  The
    slice handed over has the caller's length exactly when the caller's list
    had no duplicate. *)
Theorem TorrentSet_keeps_the_entries ctx p w (s : slice) :
  len_ints (IDs p) ≠ 0 →
  TrackerList p = Some s →
  slice_wf (heap w) s →
  ∃ out w' i t,
    TorrentSet rpcCall ctx p w = Some (out, w')
    ∧ trace w' = trace w ++ [i]
    ∧ inv_heap i = heap w'
    ∧ inv_arguments i = set_TrackerList (Some t) p
    ∧ arr t = arr s ∧ off t = off s ∧ len t ≤ len s
    ∧ slice_elems (heap w') t = take (len t) (slice_elems (heap w') s)
    ∧ (∀ x, x ∈ slice_elems (heap w') s ↔ x ∈ slice_elems (heap w) s)
    ∧ (∀ x, x ∈ slice_elems (heap w') t ↔ x ∈ slice_elems (heap w) s)
    ∧ (len t = len s ↔ NoDup (slice_elems (heap w) s)).
Proof.
  intros Hl Ht Hwf.
  pose proof (normalized_Some p (heap w) s Ht Hwf) as Hn. cbv zeta in Hn.
  pose proof (length_slice_elems (heap w) s Hwf) as Hls.
  pose proof (uniq_sort_full_iff_NoDup (slice_elems (heap w) s)) as Hnd.
  pose proof (sort_Strings_list_perm (slice_elems (heap w) s)) as Hperm.
  set (sorted := sort_Strings_list (slice_elems (heap w) s)) in *.
  pose proof (length_uniq sorted) as Hle.
  assert (Hsl : length sorted = len s) by (by rewrite Hperm).
  assert (Hlen : length (uniq sorted ++ drop (length (uniq sorted)) sorted) = len s)
    by (by rewrite length_uniq_drop).
  do 4 eexists. split; [by apply (TorrentSet_valid _ _ _ _ _ _ Hl Hn)|].
  cbn [heap trace inv_heap inv_arguments arr off len].
  split; [done|]. split; [done|]. split; [done|].
  split; [done|]. split; [done|]. cbn [len].
  split; [lia|].
  rewrite (slice_elems_store _ _ _ Hwf Hlen).
  rewrite (slice_elems_store_prefix _ _ _ _ Hwf Hlen) by lia.
  rewrite take_app_length.
  split; [done|].
  split.
  { intros x. rewrite elem_of_app, elem_of_uniq, <- Hperm. split; [|by left].
    intros [Hx|Hx]; [done|]. by apply (subseteq_drop (length (uniq sorted))). }
  split; [intros x; by rewrite elem_of_uniq, <- Hperm|].
  rewrite <- Hls. exact Hnd.
Qed.

(** X8. Normalization shows on the wire under [trackerList] only: when
    [Labels], [Group] and [Location] share no memory with the tracker list,
    every other key of the payload handed to the transport is what the
    caller's payload encoded to before the call. *)
Theorem TorrentSet_changes_trackerList_only ctx p w (s : slice) :
  len_ints (IDs p) ≠ 0 →
  TrackerList p = Some s →
  slice_wf (heap w) s →
  TrackerList_apart p →
  ∃ out w' i (m m0 : WireMap),
    TorrentSet rpcCall ctx p w = Some (out, w')
    ∧ trace w' = trace w ++ [i]
    ∧ cleanPayload (inv_heap i) (inv_arguments i) = Some m
    ∧ cleanPayload (heap w) p = Some m0
    ∧ (∀ k, k ≠ "trackerList" → m !! k = m0 !! k)
    ∧ is_Some (m !! "trackerList").
Proof.
  intros Hl Ht Hwf Hap.
  destruct (normalized_TrackerList p (heap w) s Ht Hwf) as (h' & t & Hn & He & Hf).
  do 5 eexists. split; [by apply (TorrentSet_valid _ _ _ _ _ _ Hl Hn)|]. simpl.
  split; [done|].
  split; [apply cleanPayload_eq|]. split; [apply cleanPayload_eq|].
  cbn [inv_heap inv_arguments].
  assert (Hattr : ∀ a, a ≠ ATrackerList →
            wire_value h' (set_TrackerList (Some t) p) a = wire_value (heap w) p a).
  { intros a Ha. rewrite wire_value_set_TrackerList by done.
    by apply (apart_reads_same (heap w) h' p s Ht Hap Hf). }
  split.
  - intros k Hk.
    assert (Hkey : ∀ a, k = wire_key a →
      nested_loop (overloaded h' (set_TrackerList (Some t) p))
        (fields_TorrentSetPayload h' (set_TrackerList (Some t) p)) !! k
      = nested_loop (overloaded (heap w) p) (fields_TorrentSetPayload (heap w) p) !! k).
    { intros a ->. rewrite !cleanPayload_wire_value. apply Hattr. by intros ->. }
    destruct (nested_loop (overloaded h' (set_TrackerList (Some t) p))
                (fields_TorrentSetPayload h' (set_TrackerList (Some t) p)) !! k)
      as [v|] eqn:H1.
    + destruct (cleanPayload_keys h' (set_TrackerList (Some t) p) k) as [a Ha];
        [by rewrite H1|].
      exact (Hkey a Ha).
    + destruct (nested_loop (overloaded (heap w) p)
                  (fields_TorrentSetPayload (heap w) p) !! k) as [v|] eqn:H2; [|done].
      destruct (cleanPayload_keys (heap w) p k) as [a Ha]; [by rewrite H2|].
      exact (Hkey a Ha).
  - pose proof (cleanPayload_wire_value h' (set_TrackerList (Some t) p) ATrackerList)
      as Hv. cbn [wire_key wire_value set_TrackerList TrackerList] in Hv.
    rewrite Hv. by eexists.
Qed.

End client_more.

(** ** [TorrentSet] twice, and blank entries *)

(** All that normalization leaves behind for a payload with a tracker
    list. *)
Lemma normalized_facts (p : TorrentSetPayload) (h : Heap) (s : slice) :
  TrackerList p = Some s → slice_wf h s →
  ∃ h' t,
    normalized p h = Some (h', set_TrackerList (Some t) p)
    ∧ t = {| arr := arr s; off := off s;
             len := length (uniq (sort_Strings_list (slice_elems h s))) |}
    ∧ slice_elems h' t = uniq (sort_Strings_list (slice_elems h s))
    ∧ slice_wf h' s
    ∧ (∀ x, x ∈ slice_elems h' s ↔ x ∈ slice_elems h s)
    ∧ ∀ l, slice_disjoint l s → slice_elems h' l = slice_elems h l.
Proof.
  intros Ht Hwf.
  pose proof (normalized_Some p h s Ht Hwf) as Hn. cbv zeta in Hn.
  pose proof (sort_Strings_list_perm (slice_elems h s)) as Hperm.
  set (sorted := sort_Strings_list (slice_elems h s)) in *.
  pose proof (length_uniq sorted) as Hle.
  assert (Hlen : length (uniq sorted ++ drop (length (uniq sorted)) sorted) = len s).
  { rewrite length_uniq_drop, Hperm. by apply length_slice_elems. }
  do 2 eexists. split; [exact Hn|]. split; [done|].
  split.
  { rewrite slice_elems_store_prefix; [by rewrite take_app_length|done|done|].
    rewrite <- Hlen, length_app. lia. }
  split; [by apply slice_store_wf|].
  split.
  { intros x. rewrite (slice_elems_store _ _ _ Hwf Hlen).
    rewrite elem_of_app, elem_of_uniq, <- Hperm. split; [|by left].
    intros [Hx|Hx]; [done|]. by apply (subseteq_drop (length (uniq sorted))). }
  intros l Hd. by apply slice_elems_store_disjoint.
Qed.

Section client_twice.
Context {Ctx Client : Type}.
Variable rpcCall :
  Client → Ctx → string → Heap → TorrentSetPayload → Client * option error.
Variable json_Marshal : WireMap → list Byte.byte * option error.
Implicit Types (ctx : Ctx) (p : TorrentSetPayload) (w : @World Ctx Client).

(** X9. When [Labels], [Group] and [Location] share no memory with the
    tracker list, submitting the same payload a second time, in the memory
    the first call left (where the caller's tracker list has been
    rearranged), hands the transport the same tracker slice and a payload
    that encodes to the same bytes as the first time, whatever the transport
    answered. *)
Theorem TorrentSet_resubmission_encodes_alike ctx ctx' p w (s : slice) :
  len_ints (IDs p) ≠ 0 →
  TrackerList p = Some s →
  slice_wf (heap w) s →
  TrackerList_apart p →
  ∃ out1 w1 i1 out2 w2 i2,
    TorrentSet rpcCall ctx p w = Some (out1, w1)
    ∧ trace w1 = trace w ++ [i1]
    ∧ TorrentSet rpcCall ctx' p w1 = Some (out2, w2)
    ∧ trace w2 = trace w ++ [i1; i2]
    ∧ inv_arguments i2 = inv_arguments i1
    ∧ cleanPayload (inv_heap i2) (inv_arguments i2)
      = cleanPayload (inv_heap i1) (inv_arguments i1)
    ∧ MarshalJSON json_Marshal (inv_heap i2) (inv_arguments i2)
      = MarshalJSON json_Marshal (inv_heap i1) (inv_arguments i1).
Proof.
  intros Hl Ht Hwf Hap.
  destruct (normalized_facts p (heap w) s Ht Hwf)
    as (h1 & t1 & Hn1 & Ht1 & He1 & Hwf1 & Hsame1 & Hf1).
  destruct (normalized_facts p h1 s Ht Hwf1)
    as (h2 & t2 & Hn2 & Ht2 & He2 & _ & _ & Hf2).
  assert (Hu : uniq (sort_Strings_list (slice_elems h1 s))
               = uniq (sort_Strings_list (slice_elems (heap w) s)))
    by (by apply uniq_sort_canonical).
  assert (Htt : t2 = t1) by (by rewrite Ht1, Ht2, Hu).
  clear Ht1 Ht2. subst t2.
  pose proof (TorrentSet_valid rpcCall ctx p w _ _ Hl Hn1) as Hr1.
  set (w1 := {| heap := h1;
                client := (rpcCall (client w) ctx "torrent-set" h1
                             (set_TrackerList (Some t1) p)).1;
                trace := trace w ++ [ {| inv_ctx := ctx; inv_method := "torrent-set";
                                         inv_heap := h1;
                                         inv_arguments := set_TrackerList (Some t1) p |} ] |})
    in *.
  pose proof (TorrentSet_valid rpcCall ctx' p w1 h2 _ Hl Hn2) as Hr2.
  assert (Hext : cleanPayload h2 (set_TrackerList (Some t1) p)
                 = cleanPayload h1 (set_TrackerList (Some t1) p)).
  { apply cleanPayload_ext. intros a.
    destruct (decide (a = ATrackerList)) as [->|Ha].
    - cbn [wire_value set_TrackerList TrackerList]. simpl.
      by rewrite He1, He2, Hu.
    - rewrite !wire_value_set_TrackerList by done.
      by apply (apart_reads_same h1 h2 p s Ht Hap Hf2). }
  do 6 eexists.
  split; [exact Hr1|]. split; [done|].
  split; [exact Hr2|].
  split; [cbn [trace w1]; by rewrite <- app_assoc|].
  cbn [inv_heap inv_arguments].
  split; [done|]. split; [exact Hext|].
  unfold MarshalJSON. by rewrite Hext.
Qed.

(** X10. Blank entries do not stay where the caller put them: when the tracker
    list holds an empty string anywhere, the list handed to the transport
    begins with the empty string and holds it nowhere else, and the string
    under [trackerList] is the join of that list, which for more than one
    entry is a line break followed by the join of the other entries. *)
Theorem TorrentSet_blank_entries_go_first ctx p w (s : slice) :
  len_ints (IDs p) ≠ 0 →
  TrackerList p = Some s →
  slice_wf (heap w) s →
  "" ∈ slice_elems (heap w) s →
  ∃ out w' i t rest (m : WireMap),
    TorrentSet rpcCall ctx p w = Some (out, w')
    ∧ trace w' = trace w ++ [i]
    ∧ TrackerList (inv_arguments i) = Some t
    ∧ slice_elems (inv_heap i) t = "" :: rest
    ∧ ("" ∉ rest)
    ∧ (∀ x, x ∈ rest ↔ x ∈ slice_elems (heap w) s ∧ x ≠ "")
    ∧ cleanPayload (inv_heap i) (inv_arguments i) = Some m
    ∧ m !! "trackerList" = Some (VString (strings_Join ("" :: rest) newline))
    ∧ (rest ≠ [] →
         strings_Join ("" :: rest) newline
         = String.append newline (strings_Join rest newline)).
Proof.
  intros Hl Ht Hwf Hblank.
  destruct (normalized_facts p (heap w) s Ht Hwf)
    as (h1 & t1 & Hn1 & Ht1 & He1 & _ & _ & _).
  pose proof (TorrentSet_valid rpcCall ctx p w _ _ Hl Hn1) as Hr1.
  destruct (uniq_sorted string_le _
              (sort_Strings_list_sorted (slice_elems (heap w) s))) as [Hs Hnd].
  assert (Hin : ∀ x, x ∈ uniq (sort_Strings_list (slice_elems (heap w) s))
                     ↔ x ∈ slice_elems (heap w) s).
  { intros x. by rewrite elem_of_uniq, sort_Strings_list_perm. }
  destruct (uniq (sort_Strings_list (slice_elems (heap w) s))) as [|x0 rest] eqn:Hu.
  { apply Hin in Hblank. by apply elem_of_nil in Hblank. }
  assert (Hx0 : x0 = "").
  { apply Hin in Hblank. apply elem_of_cons in Hblank as [<-|Hb]; [done|].
    apply StronglySorted_cons in Hs as [Hall _]. rewrite Forall_forall in Hall.
    apply (anti_symm string_le); [by apply Hall|apply string_le_empty]. }
  subst x0. apply NoDup_cons in Hnd as [Hnotin _].
  do 3 eexists. exists t1, rest. eexists.
  split; [exact Hr1|]. split; [done|].
  cbn [inv_heap inv_arguments set_TrackerList TrackerList].
  split; [done|]. split; [exact He1|]. split; [exact Hnotin|].
  split.
  { intros x. rewrite <- Hin, elem_of_cons. split.
    - intros Hx. split; [by right|]. by intros ->.
    - intros [[->|Hx] Hne]; done. }
  split; [apply cleanPayload_eq|].
  split.
  { pose proof (cleanPayload_wire_value h1 (set_TrackerList (Some t1) p) ATrackerList)
      as Hv. cbn [wire_key wire_value set_TrackerList TrackerList] in Hv.
    rewrite Hv. simpl. by rewrite He1. }
  intros Hrest. by destruct rest.
Qed.

End client_twice.

(** ** The line-joined tracker list can be read back *)

Lemma append_nil_l (r : string) : String.append "" r = r.
Proof. reflexivity. Qed.

Lemma append_cons (a : ascii) (x r : string) :
  String.append (String a x) r = String a (String.append x r).
Proof. reflexivity. Qed.

Lemma append_newline_inj (x y r r' : string) :
  newline_free x → newline_free y →
  String.append x (String.append newline r)
  = String.append y (String.append newline r') →
  x = y ∧ r = r'.
Proof.
  unfold newline.
  revert y; induction x as [|a x IH]; intros [|b y] Hx Hy Heq;
    repeat (rewrite append_nil_l in Heq || rewrite append_cons in Heq);
    cbn [newline_free] in *.
  - by injection Heq as ->.
  - injection Heq as <- _. by destruct Hy.
  - injection Heq as -> _. by destruct Hx.
  - injection Heq as -> Heq. destruct Hx as [_ Hx], Hy as [_ Hy].
    destruct (IH y Hx Hy Heq) as [-> ->]. done.
Qed.

Lemma newline_free_no_break (x y r : string) :
  newline_free x → x ≠ String.append y (String.append newline r).
Proof.
  unfold newline.
  revert x; induction y as [|b y IH]; intros x Hx ->;
    repeat (rewrite append_nil_l in Hx || rewrite append_cons in Hx);
    cbn [newline_free] in *.
  - by destruct Hx.
  - destruct Hx as [_ Hx]. by apply (IH _ Hx).
Qed.

Lemma strings_Join_cons (x y : string) (l : list string) :
  strings_Join (x :: y :: l) newline
  = (x ++ newline ++ strings_Join (y :: l) newline)%string.
Proof. done. Qed.

Lemma strings_Join_singleton (x sep : string) : strings_Join [x] sep = x.
Proof. done. Qed.

(** On non-empty lists of entries without line breaks the join is
    one-to-one. *)
Lemma strings_Join_inj (l1 : list string) : ∀ l2 : list string,
  Forall newline_free l1 → Forall newline_free l2 →
  l1 ≠ [] → l2 ≠ [] →
  strings_Join l1 newline = strings_Join l2 newline → l1 = l2.
Proof.
  induction l1 as [|x [|x' l1] IH]; intros [|y [|y' l2]] H1 H2 Hn1 Hn2 Heq;
    try done.
  - rewrite !strings_Join_singleton in Heq. by subst.
  - rewrite strings_Join_cons, strings_Join_singleton in Heq.
    apply Forall_cons in H1 as [Hx _]. by apply newline_free_no_break in Heq.
  - rewrite strings_Join_cons, strings_Join_singleton in Heq. symmetry in Heq.
    apply Forall_cons in H2 as [Hy _]. by apply newline_free_no_break in Heq.
  - rewrite !strings_Join_cons in Heq.
    apply Forall_cons in H1 as [Hx H1]. apply Forall_cons in H2 as [Hy H2].
    apply append_newline_inj in Heq as [-> Heq]; [|done|done].
    f_equal. by apply IH.
Qed.

(** X11. Two tracker lists that are not empty and whose entries hold no line
    break are encoded under [trackerList] by the same string only when they
    are the same list, entry by entry: the entries can be read back from the
    wire.  (An empty list and a list holding just the empty string both give
    the empty string.) *)
Theorem trackerList_value_determines_the_list (h1 h2 : Heap)
    (tsp1 tsp2 : TorrentSetPayload) (s1 s2 : slice) :
  TrackerList tsp1 = Some s1 →
  TrackerList tsp2 = Some s2 →
  Forall newline_free (slice_elems h1 s1) →
  Forall newline_free (slice_elems h2 s2) →
  slice_elems h1 s1 ≠ [] →
  slice_elems h2 s2 ≠ [] →
  ∃ m1 m2 : WireMap,
    cleanPayload h1 tsp1 = Some m1
    ∧ cleanPayload h2 tsp2 = Some m2
    ∧ (m1 !! "trackerList" = m2 !! "trackerList"
       ↔ slice_elems h1 s1 = slice_elems h2 s2)
    ∧ strings_Join [] newline = strings_Join [""] newline.
Proof.
  intros Ht1 Ht2 Hf1 Hf2 Hn1 Hn2.
  do 2 eexists. split; [apply cleanPayload_eq|]. split; [apply cleanPayload_eq|].
  split; [|done].
  pose proof (cleanPayload_wire_value h1 tsp1 ATrackerList) as Hv1.
  pose proof (cleanPayload_wire_value h2 tsp2 ATrackerList) as Hv2.
  cbn [wire_key wire_value] in Hv1, Hv2. rewrite Hv1, Hv2, Ht1, Ht2. simpl.
  split.
  - intros [= Heq]. by apply strings_Join_inj.
  - by intros ->.
Qed.

Lemma newline_free_uniq_sort (l : list string) :
  Forall newline_free l → Forall newline_free (uniq (sort_Strings_list l)).
Proof.
  rewrite !Forall_forall. intros Hl x Hx. apply Hl.
  by rewrite elem_of_uniq, sort_Strings_list_perm in Hx.
Qed.

Lemma uniq_sort_not_nil (l : list string) :
  l ≠ [] → uniq (sort_Strings_list l) ≠ [].
Proof.
  destruct l as [|x l]; [done|]. intros _ Hnil.
  assert (Hx : x ∈ uniq (sort_Strings_list (x :: l))).
  { rewrite elem_of_uniq, sort_Strings_list_perm. left. }
  rewrite Hnil in Hx. by apply elem_of_nil in Hx.
Qed.

Section client_sets.
Context {Ctx Client : Type}.
Variable rpcCall :
  Client → Ctx → string → Heap → TorrentSetPayload → Client * option error.
Implicit Types (ctx : Ctx) (p : TorrentSetPayload) (w : @World Ctx Client).

(** X12. After normalization the string under [trackerList] stands for the set
    of trackers, no more and no less: for two submissions whose tracker
    lists are not empty and hold no line break inside an entry, the strings
    handed to the transport are equal exactly when the two lists hold the
    same entries. *)
Theorem TorrentSet_trackerList_tells_sets_apart ctx1 ctx2 p1 p2 w1 w2
    (s1 s2 : slice) :
  len_ints (IDs p1) ≠ 0 → len_ints (IDs p2) ≠ 0 →
  TrackerList p1 = Some s1 → TrackerList p2 = Some s2 →
  slice_wf (heap w1) s1 → slice_wf (heap w2) s2 →
  Forall newline_free (slice_elems (heap w1) s1) →
  Forall newline_free (slice_elems (heap w2) s2) →
  slice_elems (heap w1) s1 ≠ [] → slice_elems (heap w2) s2 ≠ [] →
  ∃ out1 w1' i1 out2 w2' i2 (m1 m2 : WireMap),
    TorrentSet rpcCall ctx1 p1 w1 = Some (out1, w1')
    ∧ trace w1' = trace w1 ++ [i1]
    ∧ TorrentSet rpcCall ctx2 p2 w2 = Some (out2, w2')
    ∧ trace w2' = trace w2 ++ [i2]
    ∧ cleanPayload (inv_heap i1) (inv_arguments i1) = Some m1
    ∧ cleanPayload (inv_heap i2) (inv_arguments i2) = Some m2
    ∧ (m1 !! "trackerList" = m2 !! "trackerList"
       ↔ ∀ x, x ∈ slice_elems (heap w1) s1 ↔ x ∈ slice_elems (heap w2) s2).
Proof.
  intros Hl1 Hl2 Ht1 Ht2 Hwf1 Hwf2 Hf1 Hf2 Hn1 Hn2.
  destruct (normalized_facts p1 (heap w1) s1 Ht1 Hwf1)
    as (h1 & t1 & Hnorm1 & _ & He1 & _ & _ & _).
  destruct (normalized_facts p2 (heap w2) s2 Ht2 Hwf2)
    as (h2 & t2 & Hnorm2 & _ & He2 & _ & _ & _).
  do 8 eexists.
  split; [by apply (TorrentSet_valid _ _ _ _ _ _ Hl1 Hnorm1)|]. split; [done|].
  split; [by apply (TorrentSet_valid _ _ _ _ _ _ Hl2 Hnorm2)|]. split; [done|].
  split; [apply cleanPayload_eq|]. split; [apply cleanPayload_eq|].
  cbn [inv_heap inv_arguments].
  pose proof (cleanPayload_wire_value h1 (set_TrackerList (Some t1) p1) ATrackerList)
    as Hv1.
  pose proof (cleanPayload_wire_value h2 (set_TrackerList (Some t2) p2) ATrackerList)
    as Hv2.
  cbn [wire_key wire_value set_TrackerList TrackerList] in Hv1, Hv2.
  rewrite Hv1, Hv2. simpl. rewrite He1, He2.
  split.
  - intros [= Heq].
    apply strings_Join_inj in Heq;
      [|by apply newline_free_uniq_sort|by apply newline_free_uniq_sort
       |by apply uniq_sort_not_nil|by apply uniq_sort_not_nil].
    intros x.
    rewrite <- (sort_Strings_list_perm (slice_elems (heap w1) s1)).
    rewrite <- (sort_Strings_list_perm (slice_elems (heap w2) s2)).
    rewrite <- (elem_of_uniq x (sort_Strings_list (slice_elems (heap w1) s1))).
    rewrite <- (elem_of_uniq x (sort_Strings_list (slice_elems (heap w2) s2))).
    by rewrite Heq.
  - intros Hsame. by rewrite (uniq_sort_canonical _ _ Hsame).
Qed.

End client_sets.

(** ** A list that is already normalized *)

Lemma slice_store_same (h : Heap) (s : slice) :
  slice_wf h s → slice_store h s (slice_elems h s) = h.
Proof.
  intros Hwf. pose proof (length_slice_elems h s Hwf) as Hlen.
  destruct Hwf as (a & Ha & Hle).
  unfold slice_store. rewrite Ha, Hlen. apply insert_id. rewrite Ha. f_equal.
  unfold slice_elems. rewrite Ha. simpl.
  rewrite <- drop_drop, (take_drop (len s) (drop (off s) a)).
  by rewrite take_drop.
Qed.

Section client_fixed.
Context {Ctx Client : Type}.
Variable rpcCall :
  Client → Ctx → string → Heap → TorrentSetPayload → Client * option error.
Implicit Types (ctx : Ctx) (p : TorrentSetPayload) (w : @World Ctx Client).

(** X13. When the caller's tracker list is already in ascending order with no
    entry twice (in particular when it is empty or has one entry),
    [TorrentSet] writes nothing the caller can see: memory after the call is
    memory before it, and the transport is handed the caller's payload as it
    is. *)
Theorem TorrentSet_leaves_a_normalized_list ctx p w (s : slice) :
  len_ints (IDs p) ≠ 0 →
  TrackerList p = Some s →
  slice_wf (heap w) s →
  Sorted string_le (slice_elems (heap w) s) →
  NoDup (slice_elems (heap w) s) →
  ∃ out w' i,
    TorrentSet rpcCall ctx p w = Some (out, w')
    ∧ trace w' = trace w ++ [i]
    ∧ heap w' = heap w
    ∧ inv_heap i = heap w
    ∧ inv_arguments i = p.
Proof.
  intros Hl Ht Hwf Hs Hnd.
  pose proof (normalized_Some p (heap w) s Ht Hwf) as Hn. cbv zeta in Hn.
  assert (Hsort : sort_Strings_list (slice_elems (heap w) s) = slice_elems (heap w) s).
  { apply (Sorted_unique string_le); [|done|apply sort_Strings_list_perm].
    apply StronglySorted_Sorted, sort_Strings_list_sorted. }
  rewrite Hsort in Hn.
  rewrite (uniq_fixed _ (NoDup_no_adjacent_eq _ Hnd)) in Hn.
  rewrite drop_all, app_nil_r, (slice_store_same _ _ Hwf) in Hn.
  rewrite (length_slice_elems _ _ Hwf) in Hn.
  assert (Hp : set_TrackerList
                 (Some {| arr := arr s; off := off s; len := len s |}) p = p).
  { rewrite <- (set_TrackerList_same p) at 2. rewrite Ht. by destruct s. }
  rewrite Hp in Hn.
  do 3 eexists. split; [by apply (TorrentSet_valid _ _ _ _ _ _ Hl Hn)|]. done.
Qed.

End client_fixed.

(** ** The further properties on the sample data *)

Lemma sample_entries_newline_free :
  Forall newline_free ["http://b"; "http://a"; "http://a"]
  ∧ Forall newline_free ["http://a"; "http://b"].
Proof.
  split; repeat apply Forall_cons_2; try apply Forall_nil;
    cbv; repeat split; discriminate.
Defined.

Lemma sample_second_TrackerList_wf :
  slice_wf (heap sample_world) {| arr := 1; off := 0; len := 2 |}.
Proof. exists ["http://a"; "http://b"]. split; [reflexivity|]. simpl. lia. Defined.

Lemma tiered_TrackerList_wf :
  slice_wf (heap tiered_world) {| arr := 0; off := 0; len := 3 |}.
Proof. exists ["http://b"; ""; "http://a"]. split; [reflexivity|]. simpl. lia. Defined.

(** A payload with only the identifiers set: memory is left alone. *)
Lemma TorrentSet_nil_TrackerList_sample :
  ∃ out w' (i : @Invocation unit),
    TorrentSet accepting_rpcCall tt (only_IDs [1%Z]) sample_world = Some (out, w')
    ∧ heap w' = sample_heap
    ∧ inv_arguments i = only_IDs [1%Z].
Proof.
  destruct (TorrentSet_nil_TrackerList accepting_rpcCall tt (only_IDs [1%Z])
              sample_world) as (out & w' & i & m & Hr & Hh & _ & _ & Ha & _);
    [discriminate|reflexivity|].
  exists out, w', i. split; [exact Hr|]. split; [exact Hh|exact Ha].
Defined.

(** The sample tracker list has a duplicate: the slice handed over is
    shorter than the caller's. *)
Lemma TorrentSet_keeps_the_entries_sample :
  ∃ out w' (i : @Invocation unit) t,
    TorrentSet accepting_rpcCall tt sample_payload sample_world = Some (out, w')
    ∧ inv_arguments i = set_TrackerList (Some t) sample_payload
    ∧ len t ≤ 3
    ∧ len t ≠ 3.
Proof.
  destruct (TorrentSet_keeps_the_entries accepting_rpcCall tt sample_payload
              sample_world {| arr := 0; off := 0; len := 3 |}
              sample_IDs_not_empty eq_refl sample_TrackerList_wf)
    as (out & w' & i & t & Hr & _ & _ & Ha & _ & _ & Hle & _ & _ & _ & Hiff).
  exists out, w', i, t. split; [exact Hr|]. split; [exact Ha|].
  split; [exact Hle|].
  intros Heq. apply Hiff in Heq. revert Heq.
  change (¬ NoDup ["http://b"; "http://a"; "http://a"]).
  apply (bool_decide_unpack _). vm_compute. exact I.
Defined.

(** On the sample payload every key but [trackerList] is as before. *)
Lemma TorrentSet_changes_trackerList_only_sample :
  ∃ out w' (i : @Invocation unit) (m m0 : WireMap),
    TorrentSet accepting_rpcCall tt sample_payload sample_world = Some (out, w')
    ∧ cleanPayload (inv_heap i) (inv_arguments i) = Some m
    ∧ cleanPayload sample_heap sample_payload = Some m0
    ∧ m !! "files-wanted" = m0 !! "files-wanted".
Proof.
  destruct (TorrentSet_changes_trackerList_only accepting_rpcCall tt sample_payload
              sample_world {| arr := 0; off := 0; len := 3 |}
              sample_IDs_not_empty eq_refl sample_TrackerList_wf sample_TrackerList_apart)
    as (out & w' & i & m & m0 & Hr & _ & Hm & Hm0 & Hk & _).
  exists out, w', i, m, m0. split; [exact Hr|]. split; [exact Hm|].
  split; [exact Hm0|]. apply Hk. discriminate.
Defined.

(** The sample payload, submitted twice to a transport that refuses. *)
Lemma TorrentSet_resubmission_encodes_alike_sample :
  ∃ out1 w1 i1 out2 w2 i2,
    TorrentSet refusing_rpcCall tt sample_payload sample_world = Some (out1, w1)
    ∧ TorrentSet refusing_rpcCall tt sample_payload w1 = Some (out2, w2)
    ∧ trace w2 = [i1; i2]
    ∧ MarshalJSON counting_json_Marshal (inv_heap i2) (inv_arguments i2)
      = MarshalJSON counting_json_Marshal (inv_heap i1) (inv_arguments i1).
Proof.
  destruct (TorrentSet_resubmission_encodes_alike refusing_rpcCall
              counting_json_Marshal tt tt sample_payload sample_world
              {| arr := 0; off := 0; len := 3 |}
              sample_IDs_not_empty eq_refl sample_TrackerList_wf sample_TrackerList_apart)
    as (out1 & w1 & i1 & out2 & w2 & i2 & Hr1 & _ & Hr2 & Ht & _ & _ & Hj).
  exists out1, w1, i1, out2, w2, i2.
  split; [exact Hr1|]. split; [exact Hr2|]. split; [exact Ht|exact Hj].
Defined.

(** Two tiers separated by a blank entry: the blank entry is handed over
    first, and the string sent starts with a line break. *)
Lemma TorrentSet_blank_entries_go_first_sample :
  ∃ out w' (i : @Invocation unit) t rest (m : WireMap),
    TorrentSet accepting_rpcCall tt tiered_payload tiered_world = Some (out, w')
    ∧ slice_elems (inv_heap i) t = "" :: rest
    ∧ cleanPayload (inv_heap i) (inv_arguments i) = Some m
    ∧ m !! "trackerList" = Some (VString (strings_Join ("" :: rest) newline)).
Proof.
  assert (Hblank : "" ∈ slice_elems (heap tiered_world)
                          {| arr := 0; off := 0; len := 3 |}).
  { change ("" ∈ ["http://b"; ""; "http://a"]).
    apply (bool_decide_unpack _). vm_compute. exact I. }
  destruct (TorrentSet_blank_entries_go_first accepting_rpcCall tt tiered_payload
              tiered_world {| arr := 0; off := 0; len := 3 |})
    as (out & w' & i & t & rest & m & Hr & _ & _ & He & _ & _ & Hm & Hv & _);
    [discriminate|reflexivity|exact tiered_TrackerList_wf|exact Hblank|].
  exists out, w', i, t, rest, m.
  split; [exact Hr|]. split; [exact He|]. split; [exact Hm|exact Hv].
Defined.

(** The lists ["http://b", "http://a", "http://a"] and
    ["http://a", "http://b"] differ, so do their joined strings. *)
Lemma trackerList_value_determines_the_list_sample :
  ∃ m1 m2 : WireMap,
    cleanPayload sample_heap sample_payload = Some m1
    ∧ cleanPayload sample_heap
        (set_TrackerList (Some {| arr := 1; off := 0; len := 2 |}) sample_payload)
      = Some m2
    ∧ m1 !! "trackerList" ≠ m2 !! "trackerList".
Proof.
  destruct (trackerList_value_determines_the_list sample_heap sample_heap
              sample_payload
              (set_TrackerList (Some {| arr := 1; off := 0; len := 2 |}) sample_payload)
              {| arr := 0; off := 0; len := 3 |} {| arr := 1; off := 0; len := 2 |}
              eq_refl eq_refl (proj1 sample_entries_newline_free)
              (proj2 sample_entries_newline_free))
    as (m1 & m2 & Hm1 & Hm2 & Hiff & _); [discriminate|discriminate|].
  exists m1, m2. split; [exact Hm1|]. split; [exact Hm2|].
  intros Heq. apply Hiff in Heq. discriminate Heq.
Defined.

(** The same two lists hold the same trackers: once normalized they are
    sent as the same string. *)
Lemma TorrentSet_trackerList_tells_sets_apart_sample :
  ∃ out1 w1' (i1 : @Invocation unit) out2 w2' (i2 : @Invocation unit)
    (m1 m2 : WireMap),
    TorrentSet accepting_rpcCall tt sample_payload sample_world = Some (out1, w1')
    ∧ TorrentSet accepting_rpcCall tt
        (set_TrackerList (Some {| arr := 1; off := 0; len := 2 |}) sample_payload)
        sample_world = Some (out2, w2')
    ∧ cleanPayload (inv_heap i1) (inv_arguments i1) = Some m1
    ∧ cleanPayload (inv_heap i2) (inv_arguments i2) = Some m2
    ∧ m1 !! "trackerList" = m2 !! "trackerList".
Proof.
  destruct (TorrentSet_trackerList_tells_sets_apart accepting_rpcCall tt tt
              sample_payload
              (set_TrackerList (Some {| arr := 1; off := 0; len := 2 |}) sample_payload)
              sample_world sample_world
              {| arr := 0; off := 0; len := 3 |} {| arr := 1; off := 0; len := 2 |}
              sample_IDs_not_empty sample_IDs_not_empty eq_refl eq_refl
              sample_TrackerList_wf sample_second_TrackerList_wf
              (proj1 sample_entries_newline_free)
              (proj2 sample_entries_newline_free))
    as (out1 & w1' & i1 & out2 & w2' & i2 & m1 & m2
        & Hr1 & _ & Hr2 & _ & Hm1 & Hm2 & Hiff); [discriminate|discriminate|].
  exists out1, w1', i1, out2, w2', i2, m1, m2.
  split; [exact Hr1|]. split; [exact Hr2|]. split; [exact Hm1|].
  split; [exact Hm2|]. apply Hiff. intros x.
  change (x ∈ ["http://b"; "http://a"; "http://a"] ↔ x ∈ ["http://a"; "http://b"]).
  rewrite !elem_of_cons, !elem_of_nil. tauto.
Defined.

(** The tracker list ["http://a", "http://b"] is in order already. *)
Lemma TorrentSet_leaves_a_normalized_list_sample :
  ∃ out w' (i : @Invocation unit),
    TorrentSet accepting_rpcCall tt
      (set_TrackerList (Some {| arr := 1; off := 0; len := 2 |}) sample_payload)
      sample_world = Some (out, w')
    ∧ heap w' = sample_heap
    ∧ inv_arguments i
      = set_TrackerList (Some {| arr := 1; off := 0; len := 2 |}) sample_payload.
Proof.
  destruct (TorrentSet_leaves_a_normalized_list accepting_rpcCall tt
              (set_TrackerList (Some {| arr := 1; off := 0; len := 2 |}) sample_payload)
              sample_world {| arr := 1; off := 0; len := 2 |}
              sample_IDs_not_empty eq_refl sample_second_TrackerList_wf)
    as (out & w' & i & Hr & _ & Hh & _ & Ha).
  - change (Sorted string_le ["http://a"; "http://b"]).
    repeat constructor.
  - change (NoDup ["http://a"; "http://b"]).
    apply (bool_decide_unpack _). vm_compute. exact I.
  - exists out, w', i. split; [exact Hr|]. split; [exact Hh|exact Ha].
Defined.
